(** * Client-side annotation filtering (view-filter)

    A shallow embedding of the filter engine behind [filterAnnotations]:
    the matcher registry [fieldMatchers], the two filter classes
    [TermFilter] and [BooleanOpFilter], and the tree builder.

    JavaScript effects are explicit.  [Date.now()] reads a clock that lives
    in a [World] threaded through every evaluation; a thrown exception is
    the [Throw] constructor of [Result]. *)

From Stdlib Require Import String Ascii List Bool Arith ZArith QArith Lia.
From Stdlib Require Import Permutation.
From Stdlib Require Import Qround Qabs Qreduction Qpower Lqa SpecFloat.
From Stdlib Require Qcanon.
Import ListNotations.

Local Open Scope string_scope.
Local Open Scope list_scope.

(** ** The world outside the arguments *)

(** The wall clock.  [clock w n] is the value the [n]-th call of
    [Date.now()] returns; [reads w] counts the calls made so far. *)
Record World : Type := mkWorld {
  clock : nat -> Z;
  reads : nat;
}.

Definition tick (w : World) : World :=
  {| clock := clock w; reads := S (reads w) |}.

(** Computations that may read the clock. *)
Definition M (A : Type) : Type := World -> A * World.

Definition ret {A : Type} (a : A) : M A := fun w => (a, w).

Definition bind {A B : Type} (c : M A) (k : A -> M B) : M B :=
  fun w => let (a, w') := c w in k a w'.

Notation "x <- c ;; k" := (bind c (fun x => k))
  (at level 61, c at next level, right associativity).

(** [Date.now()] *)
Definition Date_now : M Z := fun w => (clock w (reads w), tick w).

(** ** Exceptions *)

Inductive Exception : Type :=
| TypeError
    (* calling a method on a value that does not have it: [normalize] on a
       missing matcher, a string method on a number *).

Inductive Result (A : Type) : Type :=
| Ok (a : A)
| Throw (e : Exception).

Arguments Ok {A} a.
Arguments Throw {A} e.

Definition bindR {A B : Type} (r : Result A) (k : A -> Result B) : Result B :=
  match r with
  | Ok a => k a
  | Throw e => Throw e
  end.

Notation "x <-! r ;; k" := (bindR r (fun x => k))
  (at level 61, r at next level, right associativity).

(** ** JavaScript values and array methods *)

(** A JavaScript number: [NaN], an infinity, or a finite double given by
    its exact value.  (The sign of zero is not kept: no operation used here
    tells the two zeros apart.) *)
Inductive number : Type :=
| NaN
| Num (q : Q)
| Inf (negative : bool).

(** The number with the integer value [z].  It is a double when [z] is at
    most [2^53] in magnitude, as every time value is: [Date.now()] and
    [valueOf] of a valid date return whole milliseconds no more than
    [8.64e15] away from the epoch. *)
Definition num_of_Z (z : Z) : number := Num (inject_Z z).

(** *** Rounding to binary64 *)

Definition pow2 (e : Z) : Q := (2 ^ e)%Q.

(** The integer nearest to [y], ties to the even one. *)
Definition rne (y : Q) : Z :=
  let f := Qfloor y in
  match Qcompare (y - inject_Z f)%Q (1 # 2) with
  | Lt => f
  | Gt => (f + 1)%Z
  | Eq => if Z.even f then f else (f + 1)%Z
  end.

(** [floor (log2 a)] for [a > 0]. *)
Definition ilog2 (a : Q) : Z :=
  let c := (Z.log2 (Qnum a) - Z.log2 (Zpos (Qden a)))%Z in
  if Qle_bool (pow2 c) a then c else (c - 1)%Z.

(** The double nearest to the positive [a], before the overflow test: a
    53-bit mantissa at the exponent of [a], which is not below that of the
    subnormals. *)
Definition magnitude (a : Q) : Q :=
  let e := Z.max (ilog2 a - 52) (-1074) in
  (inject_Z (rne (a / pow2 e)) * pow2 e)%Q.

(** IEEE 754 round-to-nearest-even into binary64: what every arithmetic
    operation of JavaScript does to its exact result. *)
Definition round64 (q : Q) : number :=
  let q := Qred q in
  if Qeq_bool q 0 then Num 0
  else
    let r := Qred (magnitude (Qabs q)) in
    if Qle_bool (pow2 1024) r then Inf (Qnum q <? 0)%Z
    else Num (if (Qnum q <? 0)%Z then (- r)%Q else r).

(** [a - b], [a / b] and [a <= b] on numbers. *)
Definition num_sub (a b : number) : number :=
  match a, b with
  | NaN, _ | _, NaN => NaN
  | Num x, Num y => round64 (x - y)
  | Inf s, Inf s' => if Bool.eqb s s' then NaN else Inf s
  | Inf s, Num _ => Inf s
  | Num _, Inf s => Inf (negb s)
  end.

Definition num_div (a b : number) : number :=
  match a, b with
  | NaN, _ | _, NaN => NaN
  | Num x, Num y =>
      if Qeq_bool y 0
      then (if Qeq_bool x 0 then NaN else Inf (Qnum x <? 0)%Z)
      else round64 (x / y)
  | Inf s, Num y => Inf (xorb s (Qnum y <? 0)%Z)
  | Num _, Inf _ => Num 0
  | Inf _, Inf _ => NaN
  end.

Definition num_le (a b : number) : bool :=
  match a, b with
  | NaN, _ | _, NaN => false
  | Num x, Num y => Qle_bool x y
  | Inf s, Inf s' => s || negb s'
  | Inf s, Num _ => s
  | Num _, Inf s => negb s
  end.

(** The same numbers in the Standard Library's specification of IEEE 754
    arithmetic, to compare [round64] with. *)
Definition SF2num (x : spec_float) : number :=
  match x with
  | S754_zero _ => Num 0
  | S754_infinity s => Inf s
  | S754_nan => NaN
  | S754_finite s m e =>
      let r := Qred (inject_Z (Zpos m) * pow2 e) in
      Num (if s then (- r)%Q else r)
  end.

Definition Z2SF (z : Z) : spec_float := binary_normalize 53 1024 z 0 false.

Definition num_eqb (a b : number) : bool :=
  match a, b with
  | NaN, NaN => true
  | Num x, Num y => Qeq_bool x y
  | Inf s, Inf s' => Bool.eqb s s'
  | _, _ => false
  end.

(** [round64 (a / b)] is the library's IEEE division of [a] by [b]. *)
Definition agrees_with_SFdiv (a b : Z) : bool :=
  num_eqb (round64 (inject_Z a / inject_Z b))
          (SF2num (SFdiv 53 1024 (Z2SF a) (Z2SF b))).

(** [lo], [lo + 1], ..., [lo + n - 1]. *)
Definition Zrange (lo : Z) (n : nat) : list Z :=
  map (fun k => (lo + Z.of_nat k)%Z) (seq 0 n).

(** [value.includes(term)]: [term] occurs somewhere in [value]. *)
Fixpoint includes (value term : string) : bool :=
  String.prefix term value
  || match value with
     | EmptyString => false
     | String _ rest => includes rest term
     end.

(** Truthiness of an optional string ([undefined] and [''] are falsy). *)
Definition truthy (v : option string) : bool :=
  match v with
  | Some s => negb (s =? "")
  | None => false
  end.

(** [a ?? '']. *)
Definition orEmpty (v : option string) : string :=
  match v with
  | Some s => s
  | None => ""
  end.

Section ArrayMethods.
Context {A : Type}.

(** [l.some(callback)]: stops at the first element the callback accepts. *)
Definition Array_some (callback : A -> M bool) : list A -> M bool :=
  fix go (l : list A) : M bool :=
    match l with
    | [] => ret false
    | a :: l' => b <- callback a ;; if b then ret true else go l'
    end.

(** [l.every(callback)]: stops at the first element the callback rejects. *)
Definition Array_every (callback : A -> M bool) : list A -> M bool :=
  fix go (l : list A) : M bool :=
    match l with
    | [] => ret true
    | a :: l' => b <- callback a ;; if b then go l' else ret false
    end.

(** [l.filter(callback)]: visits every element, in order. *)
Definition Array_filter (callback : A -> M bool) : list A -> M (list A) :=
  fix go (l : list A) : M (list A) :=
    match l with
    | [] => ret []
    | a :: l' =>
        b <- callback a ;;
        kept <- go l' ;;
        ret (if b then a :: kept else kept)
    end.

(** [l.map(callback)] for a callback that may throw: the first exception
    aborts the traversal. *)
Definition Array_map {B : Type} (callback : A -> Result B)
  : list A -> Result (list B) :=
  fix go (l : list A) : Result (list B) :=
    match l with
    | [] => Ok []
    | a :: l' =>
        b <-! callback a ;;
        bs <-! go l' ;;
        Ok (b :: bs)
    end.
End ArrayMethods.

(** ** Data model *)

Record UserInfo : Type := mkUserInfo {
  display_name : option string;
}.

(** The fields of an annotation this module reads. *)
Record Annotation : Type := mkAnnotation {
  id : option string;
  text : string;
  tags : list string;
  uri : string;
  user : string;
  user_info : option UserInfo;
  updated : string;
}.

Inductive Operator : Type :=
| And
| Or.

(** A parsed query term: [string[] | number[]] in [Facet]. *)
Inductive Term : Type :=
| TStr (s : string)
| TNum (n : number).

Record Facet : Type := mkFacet {
  terms : list Term;
  operator : Operator;
}.

(** The query object, as [Object.entries] lists it. *)
Definition Query : Type := list (string * Facet).

(** A matcher for one field. *)
Record Matcher (T : Type) : Type := mkMatcher {
  fieldValues : Annotation -> list T;
  matches : T -> T -> M bool;
  normalize : T -> T;
}.

Arguments mkMatcher {T} _ _ _.
Arguments fieldValues {T} _ _.
Arguments matches {T} _ _ _.
Arguments normalize {T} _ _.

(** [Matcher | Matcher<number>], the value type of the registry. *)
Inductive AnyMatcher : Type :=
| StringMatcher (m : Matcher string)
| NumberMatcher (m : Matcher number).

(** The two filter classes.  A [TermFilter] stores the term as its
    constructor normalized it. *)
#[local] Unset Elimination Schemes.
Inductive Filter : Type :=
| TermFilter {T : Type} (term : T) (matcher : Matcher T)
| BooleanOpFilter (op : Operator) (filters : list Filter).

#[local] Set Elimination Schemes.

(** Induction on filter trees, through the child lists. *)

Section FilterInduction.
Variable P : Filter -> Prop.
Hypothesis P_term :
  forall (T : Type) (term : T) (m : Matcher T), P (TermFilter term m).
Hypothesis P_bool :
  forall (op : Operator) (fs : list Filter),
    Forall P fs -> P (BooleanOpFilter op fs).

Fixpoint Filter_ind (f : Filter) : P f :=
  match f with
  | TermFilter term m => P_term _ term m
  | BooleanOpFilter op fs =>
      P_bool op fs
        ((fix all (l : list Filter) : Forall P l :=
            match l with
            | [] => Forall_nil P
            | g :: l' => Forall_cons g (Filter_ind g) (all l')
            end) fs)
  end.
End FilterInduction.

(** [filter.matches(ann)] for both classes. *)
Fixpoint Filter_matches (f : Filter) (ann : Annotation) : M bool :=
  match f with
  | TermFilter term matcher =>
      Array_some
        (fun value => matches matcher (normalize matcher value) term)
        (fieldValues matcher ann)
  | BooleanOpFilter And filters =>
      Array_every (fun filter => Filter_matches filter ann) filters
  | BooleanOpFilter Or filters =>
      Array_some (fun filter => Filter_matches filter ann) filters
  end.

(** Collaborators that live outside this file. *)
Class Collaborators : Type := {
  unicode_normalize : string -> string;   (* unicodeUtils.normalize *)
  unicode_fold : string -> string;        (* unicodeUtils.fold *)
  toLowerCase : string -> string;         (* String.prototype.toLowerCase *)
  quote : Annotation -> option string;    (* annotation-metadata quote *)
  (* time value of [new Date(s)]; [None] for an invalid date *)
  Date_parse : string -> option Z;
  (* the number a string is coerced to where a number is expected *)
  ToNumber : string -> number;
}.

(** [fieldMatchers[field]] on an object literal.  A name inherited from
    [Object.prototype] yields a value without a [normalize] method, on
    which the [TermFilter] constructor throws the same [TypeError] as on
    [undefined]; both are [None] here. *)
Fixpoint lookup {V : Type} (field : string) (table : list (string * V))
  : option V :=
  match table with
  | [] => None
  | (k, v) :: table' => if k =? field then Some v else lookup field table'
  end.

Section ViewFilter.
Context `{Collaborators}.

(** [new TermFilter(term, matcher)], where [matcher] is what the registry
    lookup produced ([None] is [undefined]); the source does not check that
    the term has the matcher's type.  A number handed to a string matcher
    reaches [normalizeStr], whose string methods a number does not have.  A
    string handed to the number matcher is stored as it is and coerced where
    it is used, in [delta <= age]; the coercion is the same at every
    comparison, so it is done here once. *)
Definition new_TermFilter (term : Term) (matcher : option AnyMatcher)
  : Result Filter :=
  match matcher with
  | None => Throw TypeError
  | Some (StringMatcher m) =>
      match term with
      | TStr s => Ok (TermFilter (normalize m s) m)
      | TNum _ => Throw TypeError
      end
  | Some (NumberMatcher m) =>
      match term with
      | TNum n => Ok (TermFilter (normalize m n) m)
      | TStr s => Ok (TermFilter (normalize m (ToNumber s)) m)
      end
  end.

Definition normalizeStr (val : string) : string :=
  toLowerCase (unicode_fold (unicode_normalize val)).

Definition stringFieldMatcher (fieldValues : Annotation -> list string)
  : Matcher string :=
  {| fieldValues := fieldValues;
     matches := fun value term => ret (includes value term);
     normalize := normalizeStr |}.

(** [new Date(ann.updated).valueOf()] *)
Definition Date_valueOf (s : string) : number :=
  match Date_parse s with
  | Some ms => num_of_Z ms
  | None => NaN
  end.

Definition sinceMatcher : Matcher number :=
  {| fieldValues := fun ann => [Date_valueOf (updated ann)];
     matches := fun updatedTime age =>
       now <- Date_now ;;
       let delta := num_div (num_sub (num_of_Z now) updatedTime)
                            (num_of_Z 1000) in
       ret (num_le delta age);
     normalize := fun timestamp => timestamp |}.

Definition quoteMatcher : Matcher string :=
  stringFieldMatcher (fun ann => [orEmpty (quote ann)]).
Definition tagMatcher : Matcher string :=
  stringFieldMatcher (fun ann => tags ann).
Definition textMatcher : Matcher string :=
  stringFieldMatcher (fun ann => [text ann]).
Definition uriMatcher : Matcher string :=
  stringFieldMatcher (fun ann => [uri ann]).
Definition userMatcher : Matcher string :=
  stringFieldMatcher (fun ann =>
    [user ann;
     orEmpty (match user_info ann with
              | Some info => display_name info
              | None => None
              end)]).

(** The registry, in the order of the object literal. *)
Definition fieldMatchers : list (string * AnyMatcher) :=
  [ ("quote", StringMatcher quoteMatcher);
    ("since", NumberMatcher sinceMatcher);
    ("tag", StringMatcher tagMatcher);
    ("text", StringMatcher textMatcher);
    ("uri", StringMatcher uriMatcher);
    ("user", StringMatcher userMatcher) ].

Definition makeTermFilter (field : string) (term : Term) : Result Filter :=
  new_TermFilter term (lookup field fieldMatchers).

Definition anyFields : list string := ["quote"; "text"; "tag"; "user"].

(** The callback of [.map(([field, filter]) => ...)]. *)
Definition fieldFilter (entry : string * Facet) : Result Filter :=
  let (field, filter) := entry in
  termFilters <-!
    (if field =? "any" then
       Array_map
         (fun term =>
            fs <-! Array_map (fun field => makeTermFilter field term)
                             anyFields ;;
            Ok (BooleanOpFilter Or fs))
         (terms filter)
     else
       Array_map (fun term => makeTermFilter field term) (terms filter)) ;;
  Ok (BooleanOpFilter (operator filter) termFilters).

Definition hasTerms (entry : string * Facet) : bool :=
  (0 <? length (terms (snd entry)))%nat.

(** Lines 160-179: from the query object to [rootFilter]. *)
Definition buildRootFilter (filters : Query) : Result Filter :=
  fieldFilters <-! Array_map fieldFilter (List.filter hasTerms filters) ;;
  Ok (BooleanOpFilter And fieldFilters).

(** The callback of [annotations.filter(...)]. *)
Definition keep (rootFilter : Filter) (ann : Annotation) : M bool :=
  if truthy (id ann) then Filter_matches rootFilter ann else ret false.

Definition filterAnnotations (annotations : list Annotation)
  (filters : Query) : M (Result (list (option string))) :=
  fun w =>
    match buildRootFilter filters with
    | Throw e => (Throw e, w)
    | Ok rootFilter =>
        let (kept, w') := Array_filter (keep rootFilter) annotations w in
        (Ok (map id kept), w')
    end.

End ViewFilter.

(** ** Notions the properties are stated with *)

Section Schedule.
Context {A : Type} (callback : A -> M bool).

(** Each element paired with the world in which the callback is run on
    it when the elements are visited in order, starting from [w]. *)
Fixpoint schedule (l : list A) (w : World) : list (A * World) :=
  match l with
  | [] => []
  | a :: l' => (a, w) :: schedule l' (snd (callback a w))
  end.
End Schedule.

(** Two worlds whose clocks give the same readings from now on. *)
Definition agree (w1 w2 : World) : Prop :=
  forall n : nat, clock w1 (reads w1 + n) = clock w2 (reads w2 + n).

(** A computation that sees of the world only its coming clock readings. *)
Definition Uniform {A : Type} (c : M A) : Prop :=
  forall w1 w2, agree w1 w2 ->
    fst (c w1) = fst (c w2) /\ agree (snd (c w1)) (snd (c w2)).

(** A computation that neither reads nor advances the clock. *)
Definition ClockFree {A : Type} (c : M A) : Prop :=
  exists a : A, forall w, c w = (a, w).

Definition UniformMatcher (T : Type) (m : Matcher T) : Prop :=
  forall v t, Uniform (matches m v t).

Definition ClockFreeMatcher (T : Type) (m : Matcher T) : Prop :=
  forall v t, ClockFree (matches m v t).

(** Every term filter in the tree uses a matcher that satisfies [P]. *)
#[local] Unset Elimination Schemes.
Inductive Leaves (P : forall T : Type, Matcher T -> Prop) : Filter -> Prop :=
| Leaves_term (T : Type) (term : T) (m : Matcher T) :
    P T m -> Leaves P (TermFilter term m)
| Leaves_bool (op : Operator) (fs : list Filter) :
    Forall (Leaves P) fs -> Leaves P (BooleanOpFilter op fs).

#[local] Set Elimination Schemes.

Definition registryFields : list string :=
  ["quote"; "since"; "tag"; "text"; "uri"; "user"].

Definition isField (names : list string) (field : string) : bool :=
  existsb (String.eqb field) names.

(** The term has the type the field's matcher expects: numbers for
    [since], strings for the other registry fields and for [any].  Says
    nothing about other field names. *)
Definition termFits (field : string) (term : Term) : bool :=
  match term with
  | TNum _ => negb (isField ["any"; "quote"; "tag"; "text"; "uri"; "user"] field)
  | TStr _ => negb (field =? "since")
  end.

Definition wellTyped (filters : Query) : bool :=
  forallb (fun entry => forallb (termFits (fst entry)) (terms (snd entry)))
    filters.

(** A well-formed query: every term belongs to [any] or to a registry
    field and has that field's type. *)
Definition wellFormed (filters : Query) : bool :=
  forallb
    (fun entry =>
       forallb
         (fun term =>
            isField ("any" :: registryFields) (fst entry)
            && termFits (fst entry) term)
         (terms (snd entry)))
    filters.

(** No [since] facet with terms. *)
Definition sinceFree (filters : Query) : bool :=
  forallb (fun entry => negb (hasTerms entry && (fst entry =? "since")))
    filters.

Section TreeShape.
Context `{Collaborators}.

(** The term filter a tree must hold for [term] on [field]: the matcher is
    the registry's for that field, and the stored term is the term as that
    matcher normalizes it, a string on the number matcher being coerced
    first. *)
Inductive LeafFor (field : string) : Term -> Filter -> Prop :=
| LeafFor_string (s : string) (m : Matcher string) :
    lookup field fieldMatchers = Some (StringMatcher m) ->
    LeafFor field (TStr s) (TermFilter (normalize m s) m)
| LeafFor_number (n : number) (m : Matcher number) :
    lookup field fieldMatchers = Some (NumberMatcher m) ->
    LeafFor field (TNum n) (TermFilter (normalize m n) m)
| LeafFor_coerced (s : string) (m : Matcher number) :
    lookup field fieldMatchers = Some (NumberMatcher m) ->
    LeafFor field (TStr s) (TermFilter (normalize m (ToNumber s)) m).

(** The node a facet on [field] must hold for one of its terms: the term
    filter itself, or under [any] an OR over the term filters of [quote],
    [text], [tag] and [user]. *)
Definition TermNodeFor (field : string) (term : Term) (node : Filter) : Prop :=
  if field =? "any"
  then exists leaves,
         node = BooleanOpFilter Or leaves
         /\ Forall2 (fun name leaf => LeafFor name term leaf)
                    ["quote"; "text"; "tag"; "user"] leaves
  else LeafFor field term node.

End TreeShape.

(** ** Concrete collaborators and inputs *)

Module Demo.

Definition lowerAscii (c : ascii) : ascii :=
  let n := nat_of_ascii c in
  if ((65 <=? n) && (n <=? 90))%nat then ascii_of_nat (n + 32) else c.

Fixpoint lower (s : string) : string :=
  match s with
  | EmptyString => EmptyString
  | String c s' => String (lowerAscii c) (lower s')
  end.

(** [2024-05-01T12:00:00.000Z] is 1714564800000 ms after the epoch. *)
Definition parse (s : string) : option Z :=
  if s =? "2024-05-01T12:00:00.000Z" then Some 1714564800000%Z else None.

(** [Number(s)] on the texts the examples use: ["Infinity"] is [Infinity]
    and ["60"] is 60; every other text is taken as not numeric, as
    ["infinity"] is. *)
Definition toNumber (s : string) : number :=
  if s =? "Infinity" then Inf false
  else if s =? "60" then num_of_Z 60
  else NaN.

Definition env : Collaborators :=
  {| unicode_normalize := fun s => s;
     unicode_fold := fun s => s;
     toLowerCase := lower;
     quote := fun _ => None;
     Date_parse := parse;
     ToNumber := toNumber |}.

Definition ann (i : option string) (body : string) (ts : list string)
  (u : string) (stamp : string) : Annotation :=
  {| id := i; text := body; tags := ts; uri := "https://example.org/";
     user := u; user_info := Some {| display_name := Some "Ada Lovelace" |};
     updated := stamp |}.

Definition a1 : Annotation :=
  ann (Some "a1") "Hello World" ["alpha"] "acct:ada@example.org"
      "2024-05-01T12:00:00.000Z".
Definition a2 : Annotation :=
  ann None "hello again" [] "acct:bob@example.org"
      "2024-05-01T12:00:00.000Z".
Definition a3 : Annotation :=
  ann (Some "a3") "other" ["beta"; "HELLO"] "acct:eve@example.org"
      "not a date".

(** A clock that stands still at [now]. *)
Definition at_ (now : Z) : World := {| clock := fun _ => now; reads := 0 |}.

Definition facet (ts : list Term) (op : Operator) : Facet :=
  {| terms := ts; operator := op |}.

Definition since60 : Query := [("since", facet [TNum (num_of_Z 60)] Or)].

Definition since60_root : Filter :=
  BooleanOpFilter And
    [BooleanOpFilter Or [TermFilter (num_of_Z 60) (@sinceMatcher env)]].

(** Two facets with terms around one without. *)
Definition hello_beta : Query :=
  [("any", facet [TStr "HELLO"] And);
   ("uri", facet [] And);
   ("tag", facet [TStr "beta"; TStr "gamma"] Or)].

Definition no_terms : Query := [("text", facet [] And); ("colour", facet [] Or)].

Definition colour_red : Query :=
  [("text", facet [TStr "hello"] And); ("colour", facet [TStr "red"] Or)].

(** The same standing clock after five earlier readings. *)
Definition later (now : Z) : World := {| clock := fun _ => now; reads := 5 |}.

End Demo.

(** ** Notions for the further properties *)

(** [l1] is [l2] with some elements left out, the others in place. *)
Inductive Subseq {A : Type} : list A -> list A -> Prop :=
| Subseq_nil : Subseq [] []
| Subseq_keep (a : A) (l1 l2 : list A) :
    Subseq l1 l2 -> Subseq (a :: l1) (a :: l2)
| Subseq_drop (a : A) (l1 l2 : list A) :
    Subseq l1 l2 -> Subseq l1 (a :: l2).

(** Number of term filters in a tree. *)
Fixpoint leafCount (f : Filter) : nat :=
  match f with
  | TermFilter _ _ => 1
  | BooleanOpFilter _ fs => list_sum (map leafCount fs)
  end.

(** Term filters a facet asks for: one per term, four per [any] term. *)
Definition facetLeaves (entry : string * Facet) : nat :=
  if fst entry =? "any"
  then 4 * length (terms (snd entry))
  else length (terms (snd entry)).

Definition queryLeaves (filters : Query) : nat :=
  list_sum (map facetLeaves filters).

(** A computation that leaves the clock as it is and reads it at most [n]
    times. *)
Definition Within (n : nat) {A : Type} (c : M A) : Prop :=
  forall w,
    clock (snd (c w)) = clock w
    /\ (reads w <= reads (snd (c w)) <= reads w + n)%nat.

Definition WithinOne (T : Type) (m : Matcher T) : Prop :=
  forall term ann, Within 1 (Filter_matches (TermFilter term m) ann).

(** Two filters that answer alike on every annotation, in every world. *)
Definition Equivalent (f g : Filter) : Prop :=
  forall ann w, Filter_matches f ann w = Filter_matches g ann w.

Definition hasId (ann : Annotation) : bool := truthy (id ann).

(** The clock of [w] reads [now] from here on. *)
Definition standsAt (now : Z) (w : World) : Prop :=
  forall n : nat, clock w (reads w + n) = now.

Module DemoMore.
Import Demo.

Definition three : list Annotation := [a1; a2; a3].

Definition tags_beta_gamma (op : Operator) : Query :=
  [("tag", facet [TStr "beta"; TStr "gamma"] op)].

Definition text_hello : Query := [("text", facet [TStr "hello"] And)].
Definition user_ada : Query := [("user", facet [TStr "ADA"] Or)].

Definition since_ (seconds : Z) (op : Operator) : Query :=
  [("since", facet [TNum (num_of_Z seconds)] op)].

End DemoMore.

(** * Properties *)

(** ** Substring test *)

Lemma prefix_append (t v : string) :
  String.prefix t v = true <-> exists rest, v = (t ++ rest)%string.
Proof.
  revert v. induction t as [|c t IH]; intros v.
  - split; [intros _; now exists v | now destruct v].
  - destruct v as [|d v]; cbn.
    + split; [discriminate | intros [rest E]; discriminate].
    + destruct (ascii_dec c d) as [->|Hne].
      * rewrite IH. split; intros [rest E]; exists rest; congruence.
      * split; [discriminate | intros [rest E]; congruence].
Qed.

(** [includes value term] holds exactly when [term] sits somewhere inside
    [value]. *)
Lemma includes_spec (value term : string) :
  includes value term = true <->
  exists before after, value = (before ++ term ++ after)%string.
Proof.
  induction value as [|c value IH]; cbn [includes]; rewrite orb_true_iff.
  - split.
    + intros [Hp|Hf]; [|discriminate].
      apply prefix_append in Hp as [rest E]. now exists "", rest.
    + intros (before & after & E). left. apply prefix_append.
      destruct before; [now exists after | discriminate].
  - rewrite IH. split.
    + intros [Hp | (before & after & ->)].
      * apply prefix_append in Hp as [rest E]. now exists "", rest.
      * now exists (String c before), after.
    + intros (before & after & E). destruct before as [|d before].
      * left. apply prefix_append. now exists after.
      * right. cbn in E. injection E as -> ->. now exists before, after.
Qed.

Ltac split_all := repeat match goal with |- _ /\ _ => split end.

(** ** Rounding to binary64 *)

(** [round64] against the Standard Library's IEEE 754 division and
    conversion, on a quotient that rounds down, quotients that round up,
    ties to even above [2^53], and an overflow. *)
Example round64_like_SFdiv_3_10 :
  round64 (3 # 10) = SF2num (SFdiv 53 1024 (Z2SF 3) (Z2SF 10))
  /\ round64 (3 # 10) = Num (5404319552844595 # 18014398509481984).
Proof. split_all; vm_compute; reflexivity. Qed.

Example round64_like_SFdiv_thirds :
  round64 (1 # 3) = SF2num (SFdiv 53 1024 (Z2SF 1) (Z2SF 3))
  /\ round64 (- (2 # 3)) = SF2num (SFdiv 53 1024 (Z2SF (-2)) (Z2SF 3))
  /\ round64 (299 # 1000) = SF2num (SFdiv 53 1024 (Z2SF 299) (Z2SF 1000)).
Proof. split_all; vm_compute; reflexivity. Qed.

Example round64_like_SF_ties :
  round64 (inject_Z (2 ^ 53 + 1)) = SF2num (Z2SF (2 ^ 53 + 1))
  /\ round64 (inject_Z (2 ^ 53 + 3)) = SF2num (Z2SF (2 ^ 53 + 3))
  /\ round64 (inject_Z (2 ^ 53 + 1)) = Num (inject_Z (2 ^ 53))
  /\ round64 (inject_Z (2 ^ 1024)) = Inf false
  /\ SF2num (Z2SF (2 ^ 1024)) = Inf false.
Proof. split_all; vm_compute; reflexivity. Qed.

(** On every quotient [a / 1000] for [a] from -500 to 500 ms, around a
    minute and around a day, on the largest integers below [2^53], and on
    small and huge quotients, [round64] gives what the library's IEEE
    division gives. *)
Example round64_like_SFdiv_ranges :
  forallb (fun a => agrees_with_SFdiv a 1000) (Zrange (-500) 1001) = true
  /\ forallb (fun a => agrees_with_SFdiv a 1000) (Zrange 59800 401) = true
  /\ forallb (fun a => agrees_with_SFdiv a 1000) (Zrange 86399800 401) = true
  /\ forallb (fun a => agrees_with_SFdiv a 7) (Zrange (2 ^ 53 - 101) 101) = true
  /\ forallb (fun b => agrees_with_SFdiv 1 b) (Zrange 1 200) = true
  /\ forallb (fun b => agrees_with_SFdiv (2 ^ 1000) b) (Zrange 1 50) = true.
Proof. split_all; vm_compute; reflexivity. Qed.

Section Rounding.
Local Open Scope Q_scope.

Lemma pow2_pos e : 0 < pow2 e.
Proof. apply Qpower_0_lt. reflexivity. Qed.

Lemma pow2_le e1 e2 : (e1 <= e2)%Z -> pow2 e1 <= pow2 e2.
Proof. intros Hle. apply Qpower_le_compat_l; [exact Hle | discriminate]. Qed.

Lemma pow2_lt e1 e2 : (e1 < e2)%Z -> pow2 e1 < pow2 e2.
Proof. intros Hlt. apply Qpower_lt_compat_l; [exact Hlt | reflexivity]. Qed.

Lemma pow2_add e1 e2 : pow2 (e1 + e2) == pow2 e1 * pow2 e2.
Proof. apply Qpower_plus. discriminate. Qed.

Lemma pow2_Z e : (0 <= e)%Z -> pow2 e == inject_Z (2 ^ e).
Proof. intros He. symmetry. now apply Zpower_Qpower. Qed.

(** Equal rationals round to the same number. *)
Lemma round64_comp x y : x == y -> round64 x = round64 y.
Proof. intros E. unfold round64. now rewrite (Qred_complete x y E). Qed.

Lemma rne_close y :
  y - (1 # 2) <= inject_Z (rne y) /\ inject_Z (rne y) <= y + (1 # 2).
Proof.
  unfold rne. pose proof (Qfloor_le y) as Hlo. pose proof (Qlt_floor y) as Hhi.
  rewrite inject_Z_plus in Hhi. change (inject_Z 1) with 1 in Hhi.
  destruct (Qcompare_spec (y - inject_Z (Qfloor y)) (1 # 2)) as [E|E|E].
  - destruct (Z.even (Qfloor y)); rewrite ?inject_Z_plus;
      change (inject_Z 1) with 1; split; lra.
  - split; lra.
  - rewrite inject_Z_plus. change (inject_Z 1) with 1. split; lra.
Qed.

Lemma rne_integer y z : y == inject_Z z -> rne y = z.
Proof.
  intros E. unfold rne. rewrite (Qfloor_comp y (inject_Z z) E), Qfloor_Z.
  destruct (Qcompare_spec (y - inject_Z z) (1 # 2)) as [E'|E'|E'];
    [lra | reflexivity | lra].
Qed.

Lemma ilog2_lower a : 0 < a -> pow2 (ilog2 a) <= a.
Proof.
  intros Ha. unfold ilog2.
  set (c := (Z.log2 (Qnum a) - Z.log2 (Zpos (Qden a)))%Z).
  destruct (Qle_bool (pow2 c) a) eqn:E; [now apply Qle_bool_iff|].
  destruct a as [n d]. cbn [Qnum Qden] in c.
  assert (Hn : (0 < n)%Z) by (unfold Qlt in Ha; cbn in Ha; lia).
  destruct (Z.log2_spec n Hn) as [Hn1 _].
  destruct (Z.log2_spec (Zpos d) (Pos2Z.is_pos d)) as [_ Hd2].
  assert (Hpn : pow2 (Z.log2 n) <= inject_Z n).
  { rewrite pow2_Z by apply Z.log2_nonneg. now rewrite <- Zle_Qle. }
  assert (Hpd : inject_Z (Zpos d) <= pow2 (Z.log2 (Zpos d) + 1)).
  { rewrite pow2_Z by (pose proof (Z.log2_nonneg (Zpos d)); lia).
    rewrite <- Zle_Qle. unfold Z.succ in Hd2. lia. }
  assert (Hsplit : pow2 (Z.log2 n)
                   == pow2 (c - 1) * pow2 (Z.log2 (Zpos d) + 1)).
  { rewrite <- pow2_add. unfold c. f_equiv. lia. }
  assert (Ea : (n # d) * inject_Z (Zpos d) == inject_Z n).
  { unfold Qeq, Qmult, inject_Z. cbn. lia. }
  assert (Hd : 0 < inject_Z (Zpos d)) by (rewrite <- (Zlt_Qlt 0); lia).
  pose proof (pow2_pos (c - 1)) as Hp.
  apply Qnot_lt_le. intros Hlt.
  assert (Hcontra : (n # d) * inject_Z (Zpos d)
                    < pow2 (c - 1) * pow2 (Z.log2 (Zpos d) + 1)).
  { apply Qlt_le_trans with (pow2 (c - 1) * inject_Z (Zpos d)).
    - apply Qmult_lt_compat_r; assumption.
    - rewrite !(Qmult_comm (pow2 (c - 1))).
      apply Qmult_le_compat_r; [exact Hpd | lra]. }
  rewrite Ea, <- Hsplit in Hcontra. lra.
Qed.

Lemma Qred_inject_Z z : Qred (inject_Z z) = inject_Z z.
Proof. apply Qcanon.Qred_identity. cbn. apply Z.gcd_1_r. Qed.

(** Below [2^(k+53)] the rounding error is at most half of [2^k]. *)
Lemma magnitude_close a (k : Z) :
  0 < a -> a < pow2 (k + 53) -> (-1074 <= k)%Z ->
  a - pow2 k * (1 # 2) <= magnitude a /\ magnitude a <= a + pow2 k * (1 # 2).
Proof.
  intros Ha Hlt Hk. unfold magnitude.
  set (e := Z.max (ilog2 a - 52) (-1074)).
  assert (He : (e <= k)%Z).
  { pose proof (ilog2_lower a Ha) as Hl.
    assert (Hlog : (ilog2 a < k + 53)%Z).
    { apply Qpower_lt_compat_l_inv with (q := 2); [|reflexivity].
      apply Qle_lt_trans with a; assumption. }
    unfold e. lia. }
  pose proof (pow2_pos e) as Hpe. pose proof (pow2_le e k He) as Hek.
  destruct (rne_close (a / pow2 e)) as [Hlo Hhi].
  assert (Ey : a == (a / pow2 e) * pow2 e) by (field; lra).
  set (y := a / pow2 e) in *. set (m := inject_Z (rne y)) in *.
  set (p := pow2 e) in *. set (pk := pow2 k) in *.
  split; nra.
Qed.

(** Integers below [2^53] are doubles. *)
Lemma magnitude_integer (z : Z) :
  (0 < z < 2 ^ 53)%Z -> magnitude (inject_Z z) == inject_Z z.
Proof.
  intros Hz. unfold magnitude.
  assert (Ha : 0 < inject_Z z) by (rewrite <- (Zlt_Qlt 0); lia).
  pose proof (ilog2_lower _ Ha) as Hl.
  assert (Hlog : (ilog2 (inject_Z z) < 53)%Z).
  { apply Qpower_lt_compat_l_inv with (q := 2); [|reflexivity].
    apply Qle_lt_trans with (inject_Z z); [exact Hl|].
    change (2 ^ 53) with (pow2 53). rewrite pow2_Z by lia.
    rewrite <- Zlt_Qlt. lia. }
  assert (Hlo : (-1 <= ilog2 (inject_Z z))%Z).
  { unfold ilog2. cbn [Qnum Qden inject_Z].
    pose proof (Z.log2_nonneg z). change (Z.log2 1) with 0%Z.
    destruct (Qle_bool _ _); lia. }
  set (e := Z.max (ilog2 (inject_Z z) - 52) (-1074)).
  assert (He : (-53 <= e <= 0)%Z) by (unfold e; lia).
  assert (Ep : pow2 e * pow2 (- e) == 1).
  { rewrite <- pow2_add. replace (e + - e)%Z with 0%Z by lia. reflexivity. }
  pose proof (pow2_pos e) as Hpe.
  assert (Ey : inject_Z z / pow2 e == inject_Z (z * 2 ^ (- e))).
  { rewrite inject_Z_mult, <- pow2_Z by lia. unfold pow2.
    rewrite Qpower_opp. reflexivity. }
  rewrite (rne_integer _ _ Ey), inject_Z_mult, <- pow2_Z by lia.
  rewrite <- Qmult_assoc, (Qmult_comm (pow2 (- e))), Ep. ring.
Qed.

Lemma round64_integer (z : Z) :
  (Z.abs z < 2 ^ 53)%Z -> round64 (inject_Z z) = Num (inject_Z z).
Proof.
  intros Hz. unfold round64. rewrite Qred_inject_Z.
  destruct (Z.eq_dec z 0) as [->|Hnz]; [reflexivity|].
  assert (Hq : Qeq_bool (inject_Z z) 0 = false).
  { apply not_true_iff_false. rewrite Qeq_bool_iff. intros E. apply Hnz.
    unfold Qeq in E. cbn in E. lia. }
  rewrite Hq. cbv zeta. cbn [Qnum inject_Z].
  assert (Eabs : Qabs (inject_Z z) = inject_Z (Z.abs z)) by reflexivity.
  rewrite Eabs.
  assert (Hmag : Qred (magnitude (inject_Z (Z.abs z))) = inject_Z (Z.abs z)).
  { rewrite <- (Qred_inject_Z (Z.abs z)) at 2. apply Qred_complete.
    apply magnitude_integer. lia. }
  rewrite Hmag.
  assert (Hov : Qle_bool (pow2 1024) (inject_Z (Z.abs z)) = false).
  { apply not_true_iff_false. rewrite Qle_bool_iff. intros Hle.
    assert (Hlt : inject_Z (Z.abs z) < pow2 53).
    { rewrite pow2_Z by lia. rewrite <- Zlt_Qlt. lia. }
    assert (Hpp : pow2 53 < pow2 1024) by (apply pow2_lt; lia). lra. }
  rewrite Hov. f_equal.
  destruct (Z.ltb_spec z 0) as [Hneg|Hpos].
  - unfold Qopp, inject_Z. cbn. f_equal. lia.
  - f_equal. lia.
Qed.

Lemma round64_close (x : Q) (k : Z) :
  Qabs x < pow2 (k + 53) -> (-1074 <= k < 900)%Z ->
  exists r, round64 x = Num r
            /\ x - pow2 k * (1 # 2) <= r /\ r <= x + pow2 k * (1 # 2).
Proof.
  intros Hx Hk. unfold round64.
  assert (Eq : Qred x == x) by apply Qred_correct.
  pose proof (pow2_pos k) as Hpk.
  destruct (Qeq_bool (Qred x) 0) eqn:Ez.
  - apply Qeq_bool_iff in Ez. exists 0. split; [reflexivity|]. rewrite Eq in Ez.
    split; lra.
  - apply Qeq_bool_neq in Ez. cbv zeta.
    assert (Ha : 0 < Qabs (Qred x)).
    { destruct (Qlt_le_dec 0 (Qabs (Qred x))) as [Hpos|Hle]; [exact Hpos|].
      exfalso. apply Ez.
      pose proof (Qle_Qabs (Qred x)) as H1.
      pose proof (Qle_Qabs (- Qred x)) as H2. rewrite Qabs_opp in H2. lra. }
    assert (Hlt : Qabs (Qred x) < pow2 (k + 53)) by now rewrite Eq.
    destruct (magnitude_close _ k Ha Hlt (proj1 Hk)) as [Hlo Hhi].
    set (r := Qred (magnitude (Qabs (Qred x)))).
    assert (Er : r == magnitude (Qabs (Qred x))) by apply Qred_correct.
    assert (Hov : Qle_bool (pow2 1024) r = false).
    { apply not_true_iff_false. rewrite Qle_bool_iff. intros Hle.
      assert (H1 : pow2 k <= pow2 (k + 53)) by (apply pow2_le; lia).
      assert (H2 : pow2 (k + 53) * 2 == pow2 (k + 54)).
      { replace (k + 54)%Z with (k + 53 + 1)%Z by lia.
        rewrite (pow2_add (k + 53) 1). reflexivity. }
      assert (H3 : pow2 (k + 54) <= pow2 1024) by (apply pow2_le; lia).
      lra. }
    rewrite Hov.
    destruct (Z.ltb_spec (Qnum (Qred x)) 0) as [Hneg|Hpos].
    + exists (- r). split; [reflexivity|].
      assert (Eabs : Qabs (Qred x) == - x).
      { rewrite <- Eq at 2. apply Qabs_neg. unfold Qle. cbn. lia. }
      split; lra.
    + exists r. split; [reflexivity|].
      assert (Eabs : Qabs (Qred x) == x).
      { rewrite <- Eq at 2. apply Qabs_pos. unfold Qle. cbn. lia. }
      split; lra.
Qed.

(** The age in seconds of a timestamp less than [2^52] ms away, as double
    arithmetic computes it: the subtraction is exact, and the division is
    off by at most [2^-11] s. *)
Lemma delta_close (now ms : Z) :
  (Z.abs (now - ms) < 2 ^ 52)%Z ->
  exists r,
    num_div (num_sub (num_of_Z now) (num_of_Z ms)) (num_of_Z 1000) = Num r
    /\ inject_Z (now - ms) / inject_Z 1000 - (1 # 2048) <= r
    /\ r <= inject_Z (now - ms) / inject_Z 1000 + (1 # 2048).
Proof.
  intros Hrange. unfold num_of_Z. cbn [num_sub].
  assert (Esub : round64 (inject_Z now - inject_Z ms) = Num (inject_Z (now - ms))).
  { rewrite (round64_comp _ (inject_Z (now - ms))).
    - apply round64_integer. lia.
    - unfold Z.sub. rewrite inject_Z_plus, inject_Z_opp. reflexivity. }
  rewrite Esub. cbn [num_div].
  change (Qeq_bool (inject_Z 1000) 0) with false. cbv iota.
  set (a := (now - ms)%Z) in *.
  destruct (round64_close (inject_Z a / inject_Z 1000) (-10))
    as (r & E & Hlo & Hhi); [| lia |].
  - apply Qabs_Qlt_condition.
    assert (H1 : - inject_Z (2 ^ 52) < inject_Z a)
      by (rewrite <- inject_Z_opp, <- Zlt_Qlt; lia).
    assert (H2 : inject_Z a < inject_Z (2 ^ 52)) by (rewrite <- Zlt_Qlt; lia).
    assert (Ea : inject_Z a == inject_Z a / inject_Z 1000 * 1000)
      by (change (inject_Z 1000) with 1000; field).
    replace (pow2 (-10 + 53)) with (inject_Z (2 ^ 43))
      by (vm_compute; reflexivity).
    change (inject_Z (2 ^ 52)) with 4503599627370496 in H1, H2.
    change (inject_Z (2 ^ 43)) with 8796093022208.
    split; lra.
  - exists r. split; [exact E|].
    replace (pow2 (-10)) with (1 # 1024) in Hlo, Hhi
      by (vm_compute; reflexivity).
    split; lra.
Qed.

(** The exact comparison behind a whole number of seconds. *)
Lemma whole_seconds_exact (a t : Z) :
  (a <= 1000 * t)%Z <-> inject_Z a / inject_Z 1000 <= inject_Z t.
Proof.
  rewrite Zle_Qle, inject_Z_mult. change (inject_Z 1000) with 1000.
  split; intros Hle.
  - apply Qle_shift_div_r; [reflexivity | lra].
  - assert (E : inject_Z a == inject_Z a / 1000 * 1000) by (field; discriminate).
    lra.
Qed.

(** [(now - ms) / 1000 <= t] in double arithmetic, for timestamps less than
    [2^52] ms apart and a whole number [t] of seconds: both roundings are
    harmless. *)
Lemma delta_whole_seconds (now ms t : Z) :
  (Z.abs (now - ms) < 2 ^ 52)%Z ->
  num_le (num_div (num_sub (num_of_Z now) (num_of_Z ms)) (num_of_Z 1000))
         (num_of_Z t)
  = (now - ms <=? 1000 * t)%Z.
Proof.
  intros Hrange. unfold num_of_Z. cbn [num_sub].
  assert (Esub : round64 (inject_Z now - inject_Z ms) = Num (inject_Z (now - ms))).
  { rewrite (round64_comp _ (inject_Z (now - ms))).
    - apply round64_integer. lia.
    - unfold Z.sub. rewrite inject_Z_plus, inject_Z_opp. reflexivity. }
  rewrite Esub. cbn [num_div].
  change (Qeq_bool (inject_Z 1000) 0) with false. cbv iota.
  set (a := (now - ms)%Z) in *.
  destruct (Z.compare_spec a (1000 * t)) as [E|Hlt|Hgt].
  - rewrite (round64_comp _ (inject_Z t)).
    + rewrite round64_integer by lia. cbn [num_le].
      rewrite (proj2 (Z.leb_le a (1000 * t))) by lia.
      apply Qle_bool_iff. apply Qle_refl.
    + rewrite E, inject_Z_mult. change (inject_Z 1000) with 1000.
      field.
  - destruct (round64_close (inject_Z a / inject_Z 1000) (-10))
      as (r & -> & Hlo & Hhi); [| lia |].
    + apply Qabs_Qlt_condition.
      assert (H1 : - inject_Z (2 ^ 52) < inject_Z a) by (rewrite <- inject_Z_opp, <- Zlt_Qlt; lia).
      assert (H2 : inject_Z a < inject_Z (2 ^ 52)) by (rewrite <- Zlt_Qlt; lia).
      assert (E : inject_Z a == inject_Z a / inject_Z 1000 * 1000)
        by (change (inject_Z 1000) with 1000; field).
      replace (pow2 (-10 + 53)) with (inject_Z (2 ^ 43)) by (vm_compute; reflexivity).
      change (inject_Z (2 ^ 52)) with 4503599627370496 in H1, H2.
      change (inject_Z (2 ^ 43)) with 8796093022208.
      split; lra.
    + cbn [num_le].
      rewrite (proj2 (Z.leb_le a (1000 * t))) by lia.
      apply Qle_bool_iff.
      assert (Hz : inject_Z a + 1 <= 1000 * inject_Z t).
      { change 1 with (inject_Z 1). change 1000 with (inject_Z 1000).
        rewrite <- inject_Z_plus, <- inject_Z_mult, <- Zle_Qle. lia. }
      assert (E : inject_Z a == inject_Z a / inject_Z 1000 * 1000)
        by (change (inject_Z 1000) with 1000; field).
      replace (pow2 (-10)) with (1 # 1024) in Hhi by (vm_compute; reflexivity).
      lra.
  - destruct (round64_close (inject_Z a / inject_Z 1000) (-10))
      as (r & -> & Hlo & Hhi); [| lia |].
    + apply Qabs_Qlt_condition.
      assert (H1 : - inject_Z (2 ^ 52) < inject_Z a) by (rewrite <- inject_Z_opp, <- Zlt_Qlt; lia).
      assert (H2 : inject_Z a < inject_Z (2 ^ 52)) by (rewrite <- Zlt_Qlt; lia).
      assert (E : inject_Z a == inject_Z a / inject_Z 1000 * 1000)
        by (change (inject_Z 1000) with 1000; field).
      replace (pow2 (-10 + 53)) with (inject_Z (2 ^ 43)) by (vm_compute; reflexivity).
      change (inject_Z (2 ^ 52)) with 4503599627370496 in H1, H2.
      change (inject_Z (2 ^ 43)) with 8796093022208.
      split; lra.
    + cbn [num_le].
      rewrite (proj2 (Z.leb_gt a (1000 * t))) by lia.
      apply not_true_iff_false. rewrite Qle_bool_iff.
      assert (Hz : 1000 * inject_Z t + 1 <= inject_Z a).
      { change 1 with (inject_Z 1). change 1000 with (inject_Z 1000).
        rewrite <- inject_Z_mult, <- inject_Z_plus, <- Zle_Qle. lia. }
      assert (E : inject_Z a == inject_Z a / inject_Z 1000 * 1000)
        by (change (inject_Z 1000) with 1000; field).
      replace (pow2 (-10)) with (1 # 1024) in Hlo by (vm_compute; reflexivity).
      lra.
Qed.

End Rounding.

(** ** The array methods *)

Section ArrayFacts.
Context {A : Type} (p : A -> M bool).

Lemma Array_some_cons a l w :
  Array_some p (a :: l) w =
    (if fst (p a w) then (true, snd (p a w))
     else Array_some p l (snd (p a w))).
Proof.
  cbn. unfold bind. destruct (p a w) as [[|] w']; reflexivity.
Qed.

Lemma Array_every_cons a l w :
  Array_every p (a :: l) w =
    (if fst (p a w) then Array_every p l (snd (p a w))
     else (false, snd (p a w))).
Proof.
  cbn. unfold bind. destruct (p a w) as [[|] w']; reflexivity.
Qed.

Lemma Array_filter_cons a l w :
  Array_filter p (a :: l) w =
    (let r := Array_filter p l (snd (p a w)) in
     (if fst (p a w) then a :: fst r else fst r, snd r)).
Proof.
  cbn. unfold bind. destruct (p a w) as [b w']. cbn.
  destruct (Array_filter p l w') as [kept w'']. reflexivity.
Qed.

Lemma schedule_fst l w : map fst (schedule p l w) = l.
Proof.
  revert w. induction l as [|a l IH]; intros w; cbn; [|rewrite IH]; reflexivity.
Qed.

Lemma schedule_length l w : length (schedule p l w) = length l.
Proof. rewrite <- (schedule_fst l w) at 2. now rewrite length_map. Qed.

(** [every] is a conjunction over the schedule. *)
Lemma Array_every_schedule l w :
  fst (Array_every p l w) =
    forallb (fun aw => fst (p (fst aw) (snd aw))) (schedule p l w).
Proof.
  revert w. induction l as [|a l IH]; intros w; [reflexivity|].
  rewrite Array_every_cons. cbn [schedule forallb fst snd].
  destruct (fst (p a w)); [apply IH | reflexivity].
Qed.

(** [some] is a disjunction over the schedule. *)
Lemma Array_some_schedule l w :
  fst (Array_some p l w) =
    existsb (fun aw => fst (p (fst aw) (snd aw))) (schedule p l w).
Proof.
  revert w. induction l as [|a l IH]; intros w; [reflexivity|].
  rewrite Array_some_cons. cbn [schedule existsb fst snd].
  destruct (fst (p a w)); [reflexivity | apply IH].
Qed.

(** [filter] keeps the scheduled elements the callback accepts. *)
Lemma Array_filter_schedule l w :
  fst (Array_filter p l w) =
    map fst (filter (fun aw => fst (p (fst aw) (snd aw))) (schedule p l w)).
Proof.
  revert w. induction l as [|a l IH]; intros w; [reflexivity|].
  rewrite Array_filter_cons. cbn [schedule filter fst snd].
  destruct (fst (p a w)); cbn [map fst]; now rewrite IH.
Qed.

(** With a callback that leaves the clock alone the methods are the
    list functions. *)
Section Pure.
Variable g : A -> bool.
Hypothesis p_pure : forall a w, p a w = (g a, w).

Lemma Array_some_pure l w : Array_some p l w = (existsb g l, w).
Proof.
  induction l as [|a l IH]; [reflexivity|].
  rewrite Array_some_cons, p_pure. cbn. destruct (g a); [reflexivity | exact IH].
Qed.

Lemma Array_every_pure l w : Array_every p l w = (forallb g l, w).
Proof.
  induction l as [|a l IH]; [reflexivity|].
  rewrite Array_every_cons, p_pure. cbn. destruct (g a); [exact IH | reflexivity].
Qed.

Lemma Array_filter_pure l w : Array_filter p l w = (filter g l, w).
Proof.
  induction l as [|a l IH]; [reflexivity|].
  rewrite Array_filter_cons, p_pure. cbn. rewrite IH. cbn.
  destruct (g a); reflexivity.
Qed.

Lemma schedule_pure l w : schedule p l w = map (fun a => (a, w)) l.
Proof.
  induction l as [|a l IH]; [reflexivity|].
  cbn. rewrite p_pure. cbn. now rewrite IH.
Qed.
End Pure.
End ArrayFacts.

Section ArrayMapFacts.
Context {A B : Type} (f : A -> Result B).

Lemma Array_map_Ok l bs :
  Array_map f l = Ok bs <-> Forall2 (fun a b => f a = Ok b) l bs.
Proof.
  revert bs. induction l as [|a l IH]; intros bs; cbn.
  - split; intros E.
    + injection E as <-. constructor.
    + inversion E. reflexivity.
  - destruct (f a) as [b|e] eqn:Ea; cbn.
    + destruct (Array_map f l) as [bs'|e] eqn:El; cbn.
      * split; intros E.
        -- injection E as <-. constructor; [exact Ea | now apply IH].
        -- inversion E as [|? b0 ? bs0 Eb0 Hl]; subst.
           rewrite Ea in Eb0. injection Eb0 as <-.
           apply IH in Hl. now injection Hl as <-.
      * split; intros E; [discriminate|].
        inversion E as [|? b0 ? bs0 Eb0 Hl]; subst.
        apply IH in Hl. discriminate.
    + split; intros E; [discriminate|].
      inversion E as [|? b0 ? bs0 Eb0 Hl]; subst. congruence.
Qed.

(** The traversal succeeds when the callback does on every element. *)
Lemma Array_map_total l :
  Forall (fun a => exists b, f a = Ok b) l -> exists bs, Array_map f l = Ok bs.
Proof.
  induction 1 as [|a l [b Eb] _ [bs Ebs]]; cbn.
  - now exists [].
  - rewrite Eb. cbn. rewrite Ebs. cbn. now exists (b :: bs).
Qed.

(** It throws what the first failing call throws. *)
Lemma Array_map_Throw l1 a l2 e :
  Forall (fun x => exists b, f x = Ok b) l1 -> f a = Throw e ->
  Array_map f (l1 ++ a :: l2) = Throw e.
Proof.
  induction 1 as [|x l1 [b Eb] _ IH]; intros Ea; cbn.
  - now rewrite Ea.
  - rewrite Eb. cbn. now rewrite IH.
Qed.

Lemma Array_map_length l bs : Array_map f l = Ok bs -> length bs = length l.
Proof.
  intros E. apply Array_map_Ok in E. symmetry. eapply Forall2_length, E.
Qed.
End ArrayMapFacts.

Lemma Array_map_Forall {A B : Type} (f : A -> Result B) (Q : B -> Prop) l bs :
  (forall a b, In a l -> f a = Ok b -> Q b) ->
  Array_map f l = Ok bs -> Forall Q bs.
Proof.
  intros HQ E. apply Array_map_Ok in E.
  induction E as [|a b l bs Eab _ IH]; constructor.
  - apply (HQ a); [now left | exact Eab].
  - apply IH. intros a' b' Hin. apply HQ. now right.
Qed.

(** Inversion of [Leaves] without dependent equalities. *)
Lemma Leaves_inv (P : forall T : Type, Matcher T -> Prop) (f : Filter) :
  Leaves P f ->
  match f with
  | TermFilter term m => P _ m
  | BooleanOpFilter _ fs => Forall (Leaves P) fs
  end.
Proof. destruct 1; assumption. Qed.

(** ** Properties of computations that every filter inherits *)

Section Closed.
Variable Good : forall A : Type, M A -> Prop.
Hypothesis Good_ret : forall (A : Type) (a : A), Good A (ret a).
Hypothesis Good_bind :
  forall (A B : Type) (c : M A) (k : A -> M B),
    Good A c -> (forall a, Good B (k a)) -> Good B (bind c k).

Lemma Good_some {A : Type} (p : A -> M bool) l :
  Forall (fun a => Good bool (p a)) l -> Good bool (Array_some p l).
Proof.
  induction 1 as [|a l Ha _ IH]; [apply Good_ret|].
  change (Good bool (b <- p a ;; if b then ret true else Array_some p l)).
  apply Good_bind; [exact Ha|]. intros [|]; [apply Good_ret | exact IH].
Qed.

Lemma Good_every {A : Type} (p : A -> M bool) l :
  Forall (fun a => Good bool (p a)) l -> Good bool (Array_every p l).
Proof.
  induction 1 as [|a l Ha _ IH]; [apply Good_ret|].
  change (Good bool (b <- p a ;; if b then Array_every p l else ret false)).
  apply Good_bind; [exact Ha|]. intros [|]; [exact IH | apply Good_ret].
Qed.


Lemma Good_matches f ann :
  Leaves (fun T m => forall v t, Good bool (matches m v t)) f ->
  Good bool (Filter_matches f ann).
Proof.
  induction f as [T term m | op fs IH] using Filter_ind; intros HL.
  - apply Leaves_inv in HL.
    cbn. apply Good_some, Forall_forall. intros v _. apply HL.
  - apply Leaves_inv in HL. rename HL into Hfs.
    assert (Hall : Forall (fun g => Good bool (Filter_matches g ann)) fs).
    { rewrite Forall_forall in IH, Hfs |- *. intros g Hg. now apply IH, Hfs. }
    destruct op; cbn; [now apply Good_every | now apply Good_some].
Qed.
End Closed.

(** *** Uniform computations *)

Lemma agree_tick w1 w2 : agree w1 w2 -> agree (tick w1) (tick w2).
Proof.
  intros Hag n. cbn. specialize (Hag (S n)).
  now rewrite !Nat.add_succ_r in Hag.
Qed.

Lemma Uniform_ret (A : Type) (a : A) : Uniform (ret a).
Proof. intros w1 w2 Hag. now split. Qed.

Lemma Uniform_bind (A B : Type) (c : M A) (k : A -> M B) :
  Uniform c -> (forall a, Uniform (k a)) -> Uniform (bind c k).
Proof.
  intros Hc Hk w1 w2 Hag. unfold bind.
  destruct (Hc w1 w2 Hag) as [Ea Hag'].
  destruct (c w1) as [a1 w1'], (c w2) as [a2 w2']. cbn in Ea, Hag'. subst a2.
  now apply Hk.
Qed.

Lemma Uniform_Date_now : Uniform Date_now.
Proof.
  intros w1 w2 Hag. split; cbn.
  - specialize (Hag 0%nat). now rewrite !Nat.add_0_r in Hag.
  - now apply agree_tick.
Qed.

(** *** Clock-free computations *)

Lemma ClockFree_ret (A : Type) (a : A) : ClockFree (ret a).
Proof. now exists a. Qed.

Lemma ClockFree_bind (A B : Type) (c : M A) (k : A -> M B) :
  ClockFree c -> (forall a, ClockFree (k a)) -> ClockFree (bind c k).
Proof.
  intros [a Ha] Hk. destruct (Hk a) as [b Hb].
  exists b. intros w. unfold bind. now rewrite Ha, Hb.
Qed.

Lemma ClockFree_run {A : Type} (c : M A) :
  ClockFree c -> forall w w', c w = (fst (c w'), w).
Proof. intros [a Ha] w w'. now rewrite !Ha. Qed.

(** ** The registry and the tree builder *)

Section Builder.
Context `{Collaborators}.

Lemma lookup_unknown field :
  ~ In field registryFields -> lookup field fieldMatchers = None.
Proof.
  intros Hin. cbn in Hin. unfold fieldMatchers. cbn [lookup].
  repeat match goal with
         | |- context [String.eqb ?k field] =>
             destruct (String.eqb_spec k field) as [E|_];
             [exfalso; apply Hin; tauto|]
         end.
  reflexivity.
Qed.

Lemma lookup_since : lookup "since" fieldMatchers = Some (NumberMatcher sinceMatcher).
Proof. reflexivity. Qed.

(** What the registry holds under each name. *)
Lemma lookup_registry field am :
  lookup field fieldMatchers = Some am ->
  (field = "since" /\ am = NumberMatcher sinceMatcher)
  \/ (field <> "since" /\ In field registryFields
      /\ exists fv, am = StringMatcher (stringFieldMatcher fv)).
Proof.
  unfold fieldMatchers. cbn [lookup].
  repeat match goal with
         | |- context [String.eqb ?k field] =>
             destruct (String.eqb_spec k field) as [<-|_]
         end;
    intros E; try discriminate; injection E as <-;
    try (left; split; reflexivity);
    right; (split; [discriminate|]); (split; [cbn; tauto|]);
    eexists; reflexivity.
Qed.

Section LeavesOfBuild.
Variable P : forall T : Type, Matcher T -> Prop.
Hypothesis P_string : forall fv, P string (stringFieldMatcher fv).

Lemma makeTermFilter_leaves field term f :
  field <> "since" \/ P number sinceMatcher ->
  makeTermFilter field term = Ok f -> Leaves P f.
Proof.
  intros Hsince. unfold makeTermFilter.
  destruct (lookup field fieldMatchers) as [am|] eqn:El; [|discriminate].
  apply lookup_registry in El
    as [[-> ->] | (Hne & _ & fv & ->)]; cbn.
  - destruct term; intros E; injection E as <-;
      constructor; (destruct Hsince as [Hs|Hs]; [now elim Hs | exact Hs]).
  - destruct term; [|discriminate]. intros E. injection E as <-.
    constructor. apply P_string.
Qed.

Lemma fieldFilter_leaves entry f :
  fst entry <> "since" \/ P number sinceMatcher ->
  fieldFilter entry = Ok f -> Leaves P f.
Proof.
  destruct entry as [field facet]. cbn [fst]. intros Hsince.
  unfold fieldFilter.
  destruct (field =? "any") eqn:Eany.
  - destruct (Array_map _ (terms facet)) as [tfs|e] eqn:Etfs; [|discriminate].
    cbn. intros E. injection E as <-. constructor.
    revert Etfs. apply Array_map_Forall. intros term g _.
    destruct (Array_map _ anyFields) as [fs|e] eqn:Efs; [|discriminate].
    cbn. intros E. injection E as <-. constructor.
    revert Efs. apply Array_map_Forall. intros fld g Hin.
    apply makeTermFilter_leaves. left. intros ->.
    cbn in Hin. intuition discriminate.
  - destruct (Array_map _ (terms facet)) as [tfs|e] eqn:Etfs; [|discriminate].
    cbn. intros E. injection E as <-. constructor.
    revert Etfs. apply Array_map_Forall. intros term g _.
    now apply makeTermFilter_leaves.
Qed.

Lemma buildRootFilter_leaves filters root :
  sinceFree filters = true \/ P number sinceMatcher ->
  buildRootFilter filters = Ok root -> Leaves P root.
Proof.
  intros Hsince. unfold buildRootFilter.
  destruct (Array_map _ _) as [ffs|e] eqn:Effs; [|discriminate].
  cbn. intros E. injection E as <-. constructor.
  revert Effs. apply Array_map_Forall. intros entry g Hin.
  apply filter_In in Hin as [Hin Hterms].
  apply fieldFilter_leaves.
  destruct Hsince as [Hfree|HP]; [left | now right].
  unfold sinceFree in Hfree. rewrite forallb_forall in Hfree.
  specialize (Hfree entry Hin). rewrite Hterms in Hfree. cbn in Hfree.
  intros Es. now rewrite Es in Hfree.
Qed.
End LeavesOfBuild.

Lemma stringFieldMatcher_clockfree fv :
  ClockFreeMatcher string (stringFieldMatcher fv).
Proof. intros v t. apply ClockFree_ret. Qed.

Lemma stringFieldMatcher_uniform fv :
  UniformMatcher string (stringFieldMatcher fv).
Proof. intros v t. apply Uniform_ret. Qed.

Lemma sinceMatcher_uniform : UniformMatcher number sinceMatcher.
Proof.
  intros v t. cbn. apply Uniform_bind; [apply Uniform_Date_now|].
  intros now. apply Uniform_ret.
Qed.

(** Every filter the builder makes is uniform. *)
Lemma built_uniform filters root ann :
  buildRootFilter filters = Ok root -> Uniform (Filter_matches root ann).
Proof.
  intros Eb.
  apply (Good_matches (@Uniform) Uniform_ret Uniform_bind).
  apply (buildRootFilter_leaves UniformMatcher stringFieldMatcher_uniform
           filters root); [right; apply sinceMatcher_uniform | exact Eb].
Qed.

(** Without a [since] facet no filter touches the clock. *)
Lemma built_clockfree filters root ann :
  sinceFree filters = true ->
  buildRootFilter filters = Ok root -> ClockFree (Filter_matches root ann).
Proof.
  intros Hfree Eb.
  apply (Good_matches (@ClockFree) ClockFree_ret ClockFree_bind).
  apply (buildRootFilter_leaves ClockFreeMatcher stringFieldMatcher_clockfree
           filters root); [now left | exact Eb].
Qed.

End Builder.

(** ** Term filters and boolean combinators *)

Lemma forallb_Forall {A : Type} (g : A -> bool) l :
  forallb g l = true <-> Forall (fun a => g a = true) l.
Proof. now rewrite forallb_forall, Forall_forall. Qed.

Lemma existsb_Exists {A : Type} (g : A -> bool) l :
  existsb g l = true <-> Exists (fun a => g a = true) l.
Proof. now rewrite existsb_exists, Exists_exists. Qed.

(** C5: a [BooleanOpFilter] with operator AND matches exactly when every
    child matches, and with operator OR exactly when at least one child
    matches; each child is asked in the world its turn comes in (the
    [schedule] of the children).  On an empty child list AND answers true
    and OR answers false, without touching the clock. *)
Theorem BooleanOpFilter_matches_spec
  (fs : list Filter) (ann : Annotation) (w : World) :
  (fst (Filter_matches (BooleanOpFilter And fs) ann w) = true <->
     Forall (fun fw => fst (Filter_matches (fst fw) ann (snd fw)) = true)
            (schedule (fun f => Filter_matches f ann) fs w))
  /\ (fst (Filter_matches (BooleanOpFilter Or fs) ann w) = true <->
     Exists (fun fw => fst (Filter_matches (fst fw) ann (snd fw)) = true)
            (schedule (fun f => Filter_matches f ann) fs w))
  /\ Filter_matches (BooleanOpFilter And []) ann w = (true, w)
  /\ Filter_matches (BooleanOpFilter Or []) ann w = (false, w).
Proof.
  repeat split; try reflexivity.
  - cbn [Filter_matches]. rewrite Array_every_schedule. apply forallb_Forall.
  - cbn [Filter_matches]. rewrite Array_every_schedule. apply forallb_Forall.
  - cbn [Filter_matches]. rewrite Array_some_schedule. apply existsb_Exists.
  - cbn [Filter_matches]. rewrite Array_some_schedule. apply existsb_Exists.
Qed.

(** When no child touches the clock the combinators are [forallb] and
    [existsb] over the children. *)
Lemma BooleanOpFilter_matches_clockfree op fs ann w :
  Forall (fun f => ClockFree (Filter_matches f ann)) fs ->
  Filter_matches (BooleanOpFilter op fs) ann w =
    (match op with
     | And => forallb (fun f => fst (Filter_matches f ann w)) fs
     | Or => existsb (fun f => fst (Filter_matches f ann w)) fs
     end, w).
Proof.
  intros Hfree.
  assert (Hp : forall f w', In f fs ->
             Filter_matches f ann w' = (fst (Filter_matches f ann w), w')).
  { intros f w' Hin. rewrite Forall_forall in Hfree.
    apply ClockFree_run. now apply Hfree. }
  clear Hfree. destruct op; cbn [Filter_matches].
  - induction fs as [|f fs IH]; [reflexivity|].
    rewrite Array_every_cons, (Hp f w) by now left. cbn.
    destruct (fst (Filter_matches f ann w)); [|reflexivity].
    apply IH. intros g w' Hin. apply Hp. now right.
  - induction fs as [|f fs IH]; [reflexivity|].
    rewrite Array_some_cons, (Hp f w) by now left. cbn.
    destruct (fst (Filter_matches f ann w)); [reflexivity|].
    apply IH. intros g w' Hin. apply Hp. now right.
Qed.

Section Leaves.
Context `{Collaborators}.

(** A term filter over a string field is a pure test of the field's
    values. *)
Lemma string_TermFilter_matches fv term ann w :
  Filter_matches (TermFilter term (stringFieldMatcher fv)) ann w =
    (existsb (fun value => includes (normalizeStr value) term) (fv ann), w).
Proof.
  cbn [Filter_matches]. apply Array_some_pure. reflexivity.
Qed.

(** C7: a term filter built from [term] matches an annotation exactly when
    at least one of the values [fieldValues] extracts, once normalized,
    satisfies the matcher's [matches] against the term as the constructor
    normalized it; each value is compared in the world its turn comes in.
    The constructor stores [normalize term].  For the string fields the
    answer is an [existsb] over the extracted values. *)
Theorem TermFilter_matches_spec :
  (forall (T : Type) (m : Matcher T) (term : T) (ann : Annotation) (w : World),
      fst (Filter_matches (TermFilter (normalize m term) m) ann w) = true <->
      Exists
        (fun vw =>
           fst (matches m (normalize m (fst vw)) (normalize m term) (snd vw))
           = true)
        (schedule (fun v => matches m (normalize m v) (normalize m term))
                  (fieldValues m ann) w))
  /\ (forall (s : string) (m : Matcher string),
        new_TermFilter (TStr s) (Some (StringMatcher m))
        = Ok (TermFilter (normalize m s) m))
  /\ (forall (n : number) (m : Matcher number),
        new_TermFilter (TNum n) (Some (NumberMatcher m))
        = Ok (TermFilter (normalize m n) m))
  /\ (forall fv (s : string) (ann : Annotation) (w : World),
        Filter_matches
          (TermFilter (normalize (stringFieldMatcher fv) s)
                      (stringFieldMatcher fv)) ann w
        = (existsb
             (fun value => includes (normalizeStr value) (normalizeStr s))
             (fv ann), w)).
Proof.
  repeat split; try reflexivity.
  - cbn [Filter_matches]. rewrite Array_some_schedule.
    intros E. now apply existsb_Exists in E.
  - cbn [Filter_matches]. rewrite Array_some_schedule.
    intros E. now apply existsb_Exists.
  - intros fv s ann w. apply string_TermFilter_matches.
Qed.

(** The [since] comparison: one reading of the clock, then
    [(now - updatedTime) / 1000 <= age] in double arithmetic. *)
Lemma since_TermFilter_matches (age : number) ann w :
  Filter_matches (TermFilter age sinceMatcher) ann w =
    (num_le
       (num_div
          (num_sub (num_of_Z (clock w (reads w))) (Date_valueOf (updated ann)))
          (num_of_Z 1000))
       age, tick w).
Proof.
  cbn. unfold bind, Date_now, ret.
  now destruct (num_le _ age).
Qed.

(** On a timestamp that does not parse the comparison is false. *)
Lemma since_invalid_date (age : number) ann w :
  Date_parse (updated ann) = None ->
  Filter_matches (TermFilter age sinceMatcher) ann w = (false, tick w).
Proof.
  intros Hnan. rewrite since_TermFilter_matches. unfold Date_valueOf.
  now rewrite Hnan.
Qed.

(** On whole seconds and timestamps less than [2^52] ms apart the double
    arithmetic of the comparison is exact. *)
Lemma since_whole_seconds (t : Z) ann w ms :
  Date_parse (updated ann) = Some ms ->
  (Z.abs (clock w (reads w) - ms) < 2 ^ 52)%Z ->
  fst (Filter_matches (TermFilter (num_of_Z t) sinceMatcher) ann w)
  = (clock w (reads w) - ms <=? 1000 * t)%Z.
Proof.
  intros Hms Hrange. rewrite since_TermFilter_matches. unfold Date_valueOf.
  rewrite Hms. cbn [fst]. now apply delta_whole_seconds.
Qed.

(** On any age the double arithmetic of the comparison stays within
    [2^-11] s of the exact quotient. *)
Lemma since_close (age : Q) ann w ms :
  Date_parse (updated ann) = Some ms ->
  (Z.abs (clock w (reads w) - ms) < 2 ^ 52)%Z ->
  ((inject_Z (clock w (reads w) - ms) / inject_Z 1000 + (1 # 2048) <= age)%Q ->
   fst (Filter_matches (TermFilter (Num age) sinceMatcher) ann w) = true)
  /\ (fst (Filter_matches (TermFilter (Num age) sinceMatcher) ann w) = true ->
      (inject_Z (clock w (reads w) - ms) / inject_Z 1000
       <= age + (1 # 2048))%Q).
Proof.
  intros Hms Hrange. rewrite since_TermFilter_matches. unfold Date_valueOf.
  rewrite Hms. cbn [fst].
  destruct (delta_close _ _ Hrange) as (r & -> & Hlo & Hhi). cbn [num_le].
  rewrite Qle_bool_iff. split; intros Hle; lra.
Qed.

(** C4: on an annotation whose [updated] timestamp is [ms] milliseconds
    after the epoch, the [since] filter for the term [age] matches exactly
    when [(now - ms) / 1000 <= age] as JavaScript evaluates it, in double
    arithmetic, the subtraction and the division each rounded to the
    nearest double; [now] is what [Date.now()] returns.  While [now] and
    [ms] are less than [2^52] ms apart: for a whole number [t] of seconds
    no rounding shows, and the filter matches exactly when the exact
    quotient [(now - ms) / 1000] is at most [t]; for any age the rounding
    is below half a millisecond, so the filter matches when the exact
    quotient is at most [age - 2^-11] and does not when it is above
    [age + 2^-11].  With [t = 60] an annotation updated 30 seconds ago
    matches and one updated 120 seconds ago does not. *)
Theorem since_matches_spec (ann : Annotation) (w : World) (ms : Z) :
  Date_parse (updated ann) = Some ms ->
  (forall age : number,
      makeTermFilter "since" (TNum age) = Ok (TermFilter age sinceMatcher)
      /\ fst (Filter_matches (TermFilter age sinceMatcher) ann w)
         = num_le
             (num_div
                (num_sub (num_of_Z (clock w (reads w))) (num_of_Z ms))
                (num_of_Z 1000))
             age)
  /\ (forall t : Z,
        (Z.abs (clock w (reads w) - ms) < 2 ^ 52)%Z ->
        fst (Filter_matches (TermFilter (num_of_Z t) sinceMatcher) ann w) = true
        <-> (inject_Z (clock w (reads w) - ms) / inject_Z 1000 <= inject_Z t)%Q)
  /\ (clock w (reads w) - ms = 30000 ->
      fst (Filter_matches (TermFilter (num_of_Z 60) sinceMatcher) ann w)
      = true)%Z
  /\ (clock w (reads w) - ms = 120000 ->
      fst (Filter_matches (TermFilter (num_of_Z 60) sinceMatcher) ann w)
      = false)%Z
  /\ (forall age : Q,
        (Z.abs (clock w (reads w) - ms) < 2 ^ 52)%Z ->
        ((inject_Z (clock w (reads w) - ms) / inject_Z 1000 + (1 # 2048)
          <= age)%Q ->
         fst (Filter_matches (TermFilter (Num age) sinceMatcher) ann w) = true)
        /\ (fst (Filter_matches (TermFilter (Num age) sinceMatcher) ann w)
            = true ->
            (inject_Z (clock w (reads w) - ms) / inject_Z 1000
             <= age + (1 # 2048))%Q)).
Proof.
  intros Hms. split; [|split; [|split; [|split]]].
  - intros age. split; [reflexivity|].
    rewrite since_TermFilter_matches. unfold Date_valueOf. now rewrite Hms.
  - intros t Hrange. rewrite (since_whole_seconds t ann w ms Hms Hrange).
    rewrite Z.leb_le. apply whole_seconds_exact.
  - intros E. rewrite (since_whole_seconds 60 ann w ms Hms) by (rewrite E; lia).
    now rewrite E.
  - intros E. rewrite (since_whole_seconds 60 ann w ms Hms) by (rewrite E; lia).
    now rewrite E.
  - intros age Hrange. now apply since_close.
Qed.

End Leaves.

(** ** The orchestrator *)

Section Orchestrator.
Context `{Collaborators}.

Lemma keep_verdict root ann w :
  fst (keep root ann w) = truthy (id ann) && fst (Filter_matches root ann w).
Proof. unfold keep. now destruct (truthy (id ann)). Qed.

(** What [filterAnnotations] returns once the tree is built. *)
Lemma filterAnnotations_run annotations filters root w :
  buildRootFilter filters = Ok root ->
  fst (filterAnnotations annotations filters w) =
    Ok (map (fun aw => id (fst aw))
          (filter
             (fun aw =>
                truthy (id (fst aw))
                && fst (Filter_matches root (fst aw) (snd aw)))
             (schedule (keep root) annotations w))).
Proof.
  intros Eb. unfold filterAnnotations. rewrite Eb.
  pose proof (Array_filter_schedule (keep root) annotations w) as E.
  destruct (Array_filter (keep root) annotations w) as [kept w'].
  cbn [fst] in *. rewrite E, map_map. do 2 f_equal.
  apply filter_ext. intros [a wa]. apply keep_verdict.
Qed.

(** The same when the root filter leaves the clock alone: a plain
    [filter] of the input list, and the world is untouched. *)
Lemma filterAnnotations_clockfree annotations filters root w :
  buildRootFilter filters = Ok root ->
  (forall ann, ClockFree (Filter_matches root ann)) ->
  filterAnnotations annotations filters w =
    (Ok (map id
           (filter
              (fun ann => truthy (id ann) && fst (Filter_matches root ann w))
              annotations)), w).
Proof.
  intros Eb Hfree. unfold filterAnnotations. rewrite Eb.
  rewrite (Array_filter_pure (keep root)
             (fun ann => truthy (id ann) && fst (Filter_matches root ann w))).
  - reflexivity.
  - intros ann w0. unfold keep.
    destruct (truthy (id ann)); [|reflexivity].
    now rewrite (ClockFree_run _ (Hfree ann) w0 w).
Qed.

(** C1: once the query is built into [root], [filterAnnotations] returns
    the [id]s of exactly those annotations that have a non-empty [id] and
    that [root] matches, in the order of the input list.  Each annotation
    is tested in the world its turn comes in ([schedule] lists the
    annotations, in input order, with that world); when the query has no
    [since] facet the world plays no part and the result is a plain
    [filter] of the input. *)
Theorem filterAnnotations_spec
  (annotations : list Annotation) (filters : Query) (root : Filter)
  (w : World) :
  buildRootFilter filters = Ok root ->
  map fst (schedule (keep root) annotations w) = annotations
  /\ fst (filterAnnotations annotations filters w) =
       Ok (map (fun aw => id (fst aw))
             (filter
                (fun aw =>
                   truthy (id (fst aw))
                   && fst (Filter_matches root (fst aw) (snd aw)))
                (schedule (keep root) annotations w)))
  /\ (sinceFree filters = true ->
      filterAnnotations annotations filters w =
        (Ok (map id
               (filter
                  (fun ann =>
                     truthy (id ann) && fst (Filter_matches root ann w))
                  annotations)), w)).
Proof.
  intros Eb. split; [apply schedule_fst|]. split.
  - now apply filterAnnotations_run.
  - intros Hfree. apply filterAnnotations_clockfree; [exact Eb|].
    intros ann. now apply (built_clockfree filters).
Qed.

(** Every identifier returned is a non-empty string. *)
Lemma filterAnnotations_ids_truthy annotations filters w ids :
  fst (filterAnnotations annotations filters w) = Ok ids ->
  Forall (fun i => truthy i = true) ids.
Proof.
  unfold filterAnnotations.
  destruct (buildRootFilter filters) as [root|e] eqn:Eb; [|discriminate].
  pose proof (filterAnnotations_run annotations filters root w Eb) as E.
  unfold filterAnnotations in E. rewrite Eb in E. rewrite E.
  intros E'. injection E' as <-.
  apply Forall_forall. intros i Hin.
  apply in_map_iff in Hin as (aw & <- & Hin).
  apply filter_In in Hin as [_ Hk].
  now apply andb_true_iff in Hk as [Hk _].
Qed.

Lemma no_terms_filtered (filters : Query) :
  (forall entry, In entry filters -> terms (snd entry) = []) ->
  List.filter hasTerms filters = [].
Proof.
  induction filters as [|entry filters IH]; intros Hempty; [reflexivity|].
  cbn. unfold hasTerms at 1. rewrite (Hempty entry) by now left.
  cbn. apply IH. intros e He. apply Hempty. now right.
Qed.

(** C8: a query in which every facet has zero terms (the empty query
    included) contributes no filter node, and [filterAnnotations] returns
    the [id] of every annotation that has a non-empty one, in input
    order. *)
Theorem empty_facets_are_noops
  (annotations : list Annotation) (filters : Query) (w : World) :
  (forall entry, In entry filters -> terms (snd entry) = []) ->
  buildRootFilter filters = Ok (BooleanOpFilter And [])
  /\ filterAnnotations annotations filters w =
       (Ok (map id (filter (fun ann => truthy (id ann)) annotations)), w).
Proof.
  intros Hempty.
  assert (Eb : buildRootFilter filters = Ok (BooleanOpFilter And [])).
  { unfold buildRootFilter. now rewrite no_terms_filtered. }
  split; [exact Eb|].
  rewrite (filterAnnotations_clockfree annotations filters _ w Eb).
  - do 3 f_equal. apply filter_ext. intros ann. cbn. apply andb_true_r.
  - intros ann. now exists true.
Qed.

End Orchestrator.

(** ** Shapes of the tree *)

(** Solves [ClockFree] side conditions on trees whose leaves are string
    matchers. *)
Ltac clockfree_tree :=
  repeat first
    [ apply Forall_nil
    | apply Forall_cons
    | apply (Good_matches (@ClockFree) ClockFree_ret ClockFree_bind)
    | apply Leaves_bool
    | apply Leaves_term; apply stringFieldMatcher_clockfree ].

Section Shapes.
Context `{Collaborators}.

Lemma Array_map_TStr {B : Type} (F : Term -> Result B) (g : string -> B) ts :
  (forall s, F (TStr s) = Ok (g s)) ->
  Array_map F (map TStr ts) = Ok (map g ts).
Proof.
  intros HF. induction ts as [|t ts IH]; [reflexivity|].
  cbn in *. now rewrite HF, IH.
Qed.

(** C2: under the field name [any] every term [t] becomes an OR node
    whose children are the term filters for [t] over [quote], [text],
    [tag] and [user], in that order, and nothing else; so the query
    [{any: {terms: [t], operator: 'or'}}] returns exactly the annotations
    with a non-empty [id] on which [t] matches one of those four fields,
    that is: [t] occurs in the quote, the text, some tag, the user name
    or the display name. *)
Theorem any_expands_to_four_fields :
  (forall (ts : list string) (op : Operator),
      fieldFilter ("any", {| terms := map TStr ts; operator := op |})
      = Ok (BooleanOpFilter op
              (map (fun t =>
                      BooleanOpFilter Or
                        (map (fun m => TermFilter (normalizeStr t) m)
                           [quoteMatcher; textMatcher; tagMatcher;
                            userMatcher]))
                   ts)))
  /\ (forall (annotations : list Annotation) (t : string) (w : World),
        filterAnnotations annotations
          [("any", {| terms := [TStr t]; operator := Or |})] w
        = (Ok (map id
                 (filter
                    (fun ann =>
                       truthy (id ann)
                       && existsb
                            (fun m =>
                               fst (Filter_matches
                                      (TermFilter (normalizeStr t) m) ann w))
                            [quoteMatcher; textMatcher; tagMatcher;
                             userMatcher])
                    annotations)), w))
  /\ (forall (ann : Annotation) (t : string) (w : World),
        existsb
          (fun m => fst (Filter_matches (TermFilter (normalizeStr t) m) ann w))
          [quoteMatcher; textMatcher; tagMatcher; userMatcher]
        = (includes (normalizeStr (orEmpty (quote ann))) (normalizeStr t)
           || includes (normalizeStr (text ann)) (normalizeStr t)
           || existsb (fun tag => includes (normalizeStr tag) (normalizeStr t))
                      (tags ann)
           || (includes (normalizeStr (user ann)) (normalizeStr t)
               || includes
                    (normalizeStr
                       (orEmpty (match user_info ann with
                                 | Some info => display_name info
                                 | None => None
                                 end)))
                    (normalizeStr t)))).
Proof.
  split; [|split].
  - intros ts op. unfold fieldFilter.
    change ("any" =? "any") with true. cbv iota. cbn [terms operator].
    erewrite Array_map_TStr; [reflexivity|]. reflexivity.
  - intros annotations t w.
    rewrite (filterAnnotations_clockfree annotations _
               (BooleanOpFilter And
                  [BooleanOpFilter Or
                     [BooleanOpFilter Or
                        (map (fun m => TermFilter (normalizeStr t) m)
                           [quoteMatcher; textMatcher; tagMatcher;
                            userMatcher])]]) w).
    + do 3 f_equal. apply filter_ext. intros ann. f_equal.
      cbn [map].
      rewrite !BooleanOpFilter_matches_clockfree by clockfree_tree.
      cbn [fst forallb existsb].
      rewrite !BooleanOpFilter_matches_clockfree by clockfree_tree.
      cbn [fst forallb existsb].
      rewrite !BooleanOpFilter_matches_clockfree by clockfree_tree.
      cbn [fst forallb existsb].
      now rewrite andb_true_r, !orb_false_r.
    + reflexivity.
    + intros ann. eapply (built_clockfree
                 [("any", {| terms := [TStr t]; operator := Or |})]);
        reflexivity.
  - intros ann t w.
    unfold quoteMatcher, textMatcher, tagMatcher, userMatcher.
    cbn [existsb]. rewrite !string_TermFilter_matches. cbn [fst existsb].
    now rewrite !orb_false_r, !orb_assoc.
Qed.
End Shapes.

Section Facets.
Context `{Collaborators}.

(** The node built for one facet carries the facet's operator and has one
    child per term. *)
Lemma fieldFilter_shape entry ff :
  fieldFilter entry = Ok ff ->
  exists termFilters,
    ff = BooleanOpFilter (operator (snd entry)) termFilters
    /\ length termFilters = length (terms (snd entry)).
Proof.
  destruct entry as [field facet]. unfold fieldFilter. cbn [snd].
  destruct (field =? "any");
    (destruct (Array_map _ (terms facet)) as [tfs|e] eqn:Etfs;
     [|discriminate]);
    cbn; intros E; injection E as <-; exists tfs;
    (split; [reflexivity | eapply Array_map_length, Etfs]).
Qed.

Lemma makeTermFilter_LeafFor field term leaf :
  makeTermFilter field term = Ok leaf -> LeafFor field term leaf.
Proof.
  unfold makeTermFilter, new_TermFilter.
  destruct (lookup field fieldMatchers) as [[m|m]|] eqn:El; [| |discriminate];
    destruct term as [s|n]; try discriminate;
    intros E; injection E as <-; now constructor.
Qed.

Lemma fieldFilter_TermNodeFor entry ff :
  fieldFilter entry = Ok ff ->
  exists termFilters,
    ff = BooleanOpFilter (operator (snd entry)) termFilters
    /\ Forall2 (TermNodeFor (fst entry)) (terms (snd entry)) termFilters.
Proof.
  destruct entry as [field facet]. unfold fieldFilter, TermNodeFor.
  cbn [fst snd]. destruct (field =? "any").
  - destruct (Array_map _ (terms facet)) as [tfs|e] eqn:Etfs; [|discriminate].
    cbn [bindR]. intros E. injection E as <-. exists tfs.
    split; [reflexivity|]. apply Array_map_Ok in Etfs.
    eapply Forall2_impl; [|exact Etfs]. intros term node. cbv beta.
    destruct (Array_map _ anyFields) as [fs|e] eqn:Efs; [|discriminate].
    cbn [bindR]. intros E. injection E as <-. exists fs.
    split; [reflexivity|]. apply Array_map_Ok in Efs.
    eapply Forall2_impl; [|exact Efs]. intros name leaf.
    apply makeTermFilter_LeafFor.
  - destruct (Array_map _ (terms facet)) as [tfs|e] eqn:Etfs; [|discriminate].
    cbn [bindR]. intros E. injection E as <-. exists tfs.
    split; [reflexivity|]. apply Array_map_Ok in Etfs.
    eapply Forall2_impl; [|exact Etfs]. intros term node.
    apply makeTermFilter_LeafFor.
Qed.

(** C6: the root of the tree is one AND node over the field-level nodes,
    one for each facet that has terms, in query order.  Each field-level
    node carries its facet's own operator over one child per term of the
    facet, in order: the term filter for that term on the facet's field
    (under [any], an OR over the term filters for that term on [quote],
    [text], [tag] and [user]); so it matches when all of them match
    (['and']) or one of them does (['or']).  [filterAnnotations] returns
    exactly the annotations that have a non-empty [id] and on which every
    field-level node matches, each node asked in the world its turn comes
    in during the call, starting from the world in which the annotation is
    reached. *)
Theorem facets_joined_by_and (filters : Query) (root : Filter) :
  buildRootFilter filters = Ok root ->
  exists fieldFilters : list Filter,
    root = BooleanOpFilter And fieldFilters
    /\ Forall2
         (fun entry ff =>
            exists termFilters,
              ff = BooleanOpFilter (operator (snd entry)) termFilters
              /\ Forall2 (TermNodeFor (fst entry)) (terms (snd entry))
                         termFilters
              /\ forall ann w,
                   fst (Filter_matches ff ann w)
                   = match operator (snd entry) with
                     | And =>
                         forallb
                           (fun tw => fst (Filter_matches (fst tw) ann (snd tw)))
                           (schedule (fun f => Filter_matches f ann)
                                     termFilters w)
                     | Or =>
                         existsb
                           (fun tw => fst (Filter_matches (fst tw) ann (snd tw)))
                           (schedule (fun f => Filter_matches f ann)
                                     termFilters w)
                     end)
         (List.filter hasTerms filters) fieldFilters
    /\ forall (annotations : list Annotation) (w : World),
         fst (filterAnnotations annotations filters w)
         = Ok (map (fun aw => id (fst aw))
                 (filter
                    (fun aw =>
                       truthy (id (fst aw))
                       && forallb
                            (fun fw =>
                               fst (Filter_matches (fst fw) (fst aw) (snd fw)))
                            (schedule (fun f => Filter_matches f (fst aw))
                                      fieldFilters (snd aw)))
                    (schedule (keep root) annotations w))).
Proof.
  intros Eb. pose proof Eb as Eb'. unfold buildRootFilter in Eb'.
  destruct (Array_map fieldFilter (List.filter hasTerms filters))
    as [ffs|e] eqn:Effs; [|discriminate].
  cbn in Eb'. injection Eb' as <-.
  exists ffs. split; [reflexivity|]. split.
  - apply Array_map_Ok in Effs.
    eapply Forall2_impl; [|exact Effs]. intros entry ff Eff.
    destruct (fieldFilter_TermNodeFor entry ff Eff) as (tfs & -> & Hnodes).
    exists tfs. split; [reflexivity|]. split; [exact Hnodes|].
    intros ann w. destruct (operator (snd entry)); cbn [Filter_matches].
    + exact (Array_every_schedule (fun f => Filter_matches f ann) tfs w).
    + exact (Array_some_schedule (fun f => Filter_matches f ann) tfs w).
  - intros annotations w.
    rewrite (filterAnnotations_run annotations filters _ w Eb).
    do 2 f_equal. apply filter_ext. intros [ann wa]. cbn [fst snd]. f_equal.
    cbn [Filter_matches].
    exact (Array_every_schedule (fun f => Filter_matches f ann) ffs wa).
Qed.

End Facets.

(** ** Exceptions *)

Section Throwing.
Context `{Collaborators}.

Lemma isField_In names field : isField names field = true <-> In field names.
Proof.
  unfold isField. rewrite existsb_exists. split.
  - intros (k & Hin & Ek). apply String.eqb_eq in Ek. now subst.
  - intros Hin. exists field. split; [exact Hin | apply String.eqb_refl].
Qed.

Lemma makeTermFilter_total field term :
  isField registryFields field = true -> termFits field term = true ->
  exists f, makeTermFilter field term = Ok f.
Proof.
  intros Hfield Hfit. apply isField_In in Hfield. cbn in Hfield.
  repeat (destruct Hfield as [<-|Hfield]); try contradiction;
    destruct term; try discriminate Hfit; eexists; reflexivity.
Qed.

Lemma anyTermFilter_total term :
  termFits "any" term = true ->
  exists f,
    (fs <-! Array_map (fun field => makeTermFilter field term) anyFields ;;
     Ok (BooleanOpFilter Or fs)) = Ok f.
Proof.
  destruct term; [|discriminate]. intros _. eexists. reflexivity.
Qed.

Lemma fieldFilter_total entry :
  forallb
    (fun term =>
       isField ("any" :: registryFields) (fst entry)
       && termFits (fst entry) term)
    (terms (snd entry)) = true ->
  exists f, fieldFilter entry = Ok f.
Proof.
  destruct entry as [field facet]. cbn [fst snd]. intros Hwf.
  rewrite forallb_forall in Hwf. unfold fieldFilter.
  destruct (String.eqb_spec field "any") as [->|Hne].
  - destruct (Array_map_total
                (fun term =>
                   fs <-! Array_map (fun field => makeTermFilter field term)
                                    anyFields ;;
                   Ok (BooleanOpFilter Or fs)) (terms facet)) as [tfs Etfs].
    + apply Forall_forall. intros term Hin. apply anyTermFilter_total.
      now destruct (proj1 (andb_true_iff _ _) (Hwf term Hin)).
    + rewrite Etfs. cbn. now eexists.
  - destruct (Array_map_total (fun term => makeTermFilter field term)
                (terms facet)) as [tfs Etfs].
    + apply Forall_forall. intros term Hin.
      destruct (proj1 (andb_true_iff _ _) (Hwf term Hin)) as [Hf Hfit].
      apply makeTermFilter_total; [|exact Hfit].
      apply isField_In in Hf as [Hf|Hf]; [now elim Hne|].
      now apply isField_In.
    + rewrite Etfs. cbn. now eexists.
Qed.

Lemma buildRootFilter_total filters :
  wellFormed filters = true -> exists root, buildRootFilter filters = Ok root.
Proof.
  intros Hwf. unfold wellFormed in Hwf. rewrite forallb_forall in Hwf.
  unfold buildRootFilter.
  destruct (Array_map_total fieldFilter (List.filter hasTerms filters))
    as [ffs Effs].
  - apply Forall_forall. intros entry Hin. apply filter_In in Hin as [Hin _].
    now apply fieldFilter_total, Hwf.
  - rewrite Effs. cbn. now eexists.
Qed.

(** C9: on a well-formed query (every term belongs to [any] or to a
    registry field and has that field's type) [filterAnnotations] returns
    a list and does not throw; an annotation whose [updated] timestamp
    does not parse fails the [since] comparison, so a [since] query
    leaves it out instead of aborting. *)
Theorem wellFormed_query_does_not_throw :
  (forall (annotations : list Annotation) (filters : Query) (w : World),
      wellFormed filters = true ->
      exists ids w', filterAnnotations annotations filters w = (Ok ids, w'))
  /\ (forall (ann : Annotation) (age : number) (w : World),
        Date_parse (updated ann) = None ->
        Filter_matches (TermFilter age sinceMatcher) ann w = (false, tick w))
  /\ (forall (ann : Annotation) (age : number) (op : Operator) (w : World),
        Date_parse (updated ann) = None ->
        fst (filterAnnotations [ann]
               [("since", {| terms := [TNum age]; operator := op |})] w)
        = Ok []).
Proof.
  split; [|split].
  - intros annotations filters w Hwf.
    destruct (buildRootFilter_total filters Hwf) as [root Eb].
    unfold filterAnnotations. rewrite Eb.
    destruct (Array_filter (keep root) annotations w) as [kept w'].
    now exists (map id kept), w'.
  - intros ann age w Hnan. now apply since_invalid_date.
  - intros ann age op w Hnan.
    rewrite (filterAnnotations_run _ _
               (BooleanOpFilter And
                  [BooleanOpFilter op [TermFilter age sinceMatcher]]) w)
      by reflexivity.
    cbn [schedule filter fst snd].
    assert (E : fst (Filter_matches
                       (BooleanOpFilter And
                          [BooleanOpFilter op [TermFilter age sinceMatcher]])
                       ann w) = false).
    { cbn [Filter_matches]. rewrite Array_every_cons.
      assert (E : fst (Filter_matches
                         (BooleanOpFilter op [TermFilter age sinceMatcher])
                         ann w) = false).
      { destruct op; cbn [Filter_matches];
          [rewrite Array_every_cons | rewrite Array_some_cons];
          rewrite (since_invalid_date age ann w Hnan); reflexivity. }
      now rewrite E. }
    rewrite E, andb_false_r. reflexivity.
Qed.

(** Under [wellTyped] a facet is built or throws a [TypeError]. *)
Lemma makeTermFilter_typed field term :
  termFits field term = true ->
  (exists f, makeTermFilter field term = Ok f)
  \/ makeTermFilter field term = Throw TypeError.
Proof.
  intros Hfit. unfold makeTermFilter.
  destruct (lookup field fieldMatchers) as [am|] eqn:El; [|now right].
  left. apply lookup_registry in El as [[-> ->] | (Hne & Hin & fv & ->)].
  - destruct term; [discriminate Hfit | eexists; reflexivity].
  - destruct term; [eexists; reflexivity|]. exfalso.
    unfold termFits in Hfit. apply negb_true_iff in Hfit.
    assert (Hyes : isField ["any"; "quote"; "tag"; "text"; "uri"; "user"]
                     field = true).
    { apply isField_In. cbn in Hin |- *. intuition congruence. }
    congruence.
Qed.

Lemma Array_map_Ok_or {A B : Type} (f : A -> Result B) (e : Exception) l :
  Forall (fun a => (exists b, f a = Ok b) \/ f a = Throw e) l ->
  (exists bs, Array_map f l = Ok bs) \/ Array_map f l = Throw e.
Proof.
  induction 1 as [|a l Ha _ IH]; [left; now exists []|].
  cbn. destruct Ha as [[b ->] | ->]; [|now right]. cbn.
  destruct IH as [[bs ->] | ->]; [left; now eexists | now right].
Qed.

Lemma Array_map_throws {A B : Type} (f : A -> Result B) (e : Exception) l a :
  Forall (fun a => (exists b, f a = Ok b) \/ f a = Throw e) l ->
  In a l -> f a = Throw e -> Array_map f l = Throw e.
Proof.
  induction 1 as [|x l Hx Hl IH]; intros Hin Ea; [contradiction|].
  cbn. destruct Hx as [[b Eb] | ->]; [|reflexivity].
  rewrite Eb. cbn. destruct Hin as [->|Hin]; [congruence|].
  now rewrite IH.
Qed.

Lemma fieldFilter_typed entry :
  forallb (termFits (fst entry)) (terms (snd entry)) = true ->
  (exists f, fieldFilter entry = Ok f) \/ fieldFilter entry = Throw TypeError.
Proof.
  destruct entry as [field facet]. cbn [fst snd]. intros Hfit.
  rewrite forallb_forall in Hfit. unfold fieldFilter.
  destruct (String.eqb_spec field "any") as [->|Hne].
  - left.
    destruct (Array_map_total
                (fun term =>
                   fs <-! Array_map (fun field => makeTermFilter field term)
                                    anyFields ;;
                   Ok (BooleanOpFilter Or fs)) (terms facet)) as [tfs Etfs].
    + apply Forall_forall. intros term Hin.
      now apply anyTermFilter_total, Hfit.
    + rewrite Etfs. cbn. now eexists.
  - destruct (Array_map_Ok_or (fun term => makeTermFilter field term)
                TypeError (terms facet)) as [[tfs ->] | ->].
    + apply Forall_forall. intros term Hin.
      now apply makeTermFilter_typed, Hfit.
    + left. cbn. now eexists.
    + now right.
Qed.

Lemma fieldFilter_unknown field facet :
  field <> "any" -> ~ In field registryFields -> terms facet <> [] ->
  fieldFilter (field, facet) = Throw TypeError.
Proof.
  intros Hany Hreg Hterms. unfold fieldFilter.
  destruct (String.eqb_spec field "any") as [E|_]; [contradiction|].
  destruct (terms facet) as [|term ts]; [contradiction|].
  cbn. unfold makeTermFilter at 1. now rewrite lookup_unknown.
Qed.

Lemma Array_map_fails {A B : Type} (f : A -> Result B) l a e :
  In a l -> f a = Throw e -> exists e', Array_map f l = Throw e'.
Proof.
  induction l as [|x l IH]; intros Hin Ea; [contradiction|].
  cbn. destruct (f x) as [b|ex] eqn:Ex; [|now exists ex]. cbn.
  destruct Hin as [->|Hin]; [congruence|].
  destruct (IH Hin Ea) as [e' ->]. now exists e'.
Qed.

(** C10: a query with a facet that has terms and whose field name is
    neither [any] nor one of the six registry fields makes
    [filterAnnotations] throw while the tree is built, no annotation
    having been looked at and the clock not read; the unknown field is
    not ignored.  When the terms of the other facets have their fields'
    types, what is thrown is the [TypeError] of calling [normalize] on
    the missing matcher. *)
Theorem unknown_field_throws
  (annotations : list Annotation) (filters : Query) (w : World)
  (field : string) (facet : Facet) :
  In (field, facet) filters ->
  field <> "any" ->
  ~ In field registryFields ->
  terms facet <> [] ->
  (lookup field fieldMatchers = None
   /\ forall term, makeTermFilter field term = Throw TypeError)
  /\ (exists e, filterAnnotations annotations filters w = (Throw e, w))
  /\ (wellTyped filters = true ->
      filterAnnotations annotations filters w = (Throw TypeError, w)).
Proof.
  intros Hin Hany Hreg Hterms.
  assert (Hhas : In (field, facet) (List.filter hasTerms filters)).
  { apply filter_In. split; [exact Hin|]. unfold hasTerms. cbn.
    destruct (terms facet); [contradiction | reflexivity]. }
  pose proof (fieldFilter_unknown field facet Hany Hreg Hterms) as Ef.
  split; [|split].
  - split; [now apply lookup_unknown|].
    intros term. unfold makeTermFilter. now rewrite lookup_unknown.
  - destruct (Array_map_fails fieldFilter _ _ _ Hhas Ef) as [e Ee].
    exists e. unfold filterAnnotations, buildRootFilter. now rewrite Ee.
  - intros Htyped. unfold filterAnnotations, buildRootFilter.
    rewrite (Array_map_throws fieldFilter TypeError _ (field, facet));
      [reflexivity | | exact Hhas | exact Ef].
    apply Forall_forall. intros entry He.
    apply filter_In in He as [He _]. apply fieldFilter_typed.
    unfold wellTyped in Htyped. rewrite forallb_forall in Htyped.
    now apply Htyped.
Qed.

End Throwing.

(** ** Dependence on the clock *)

Section Determinism.
Context `{Collaborators}.

Lemma keep_uniform filters root ann :
  buildRootFilter filters = Ok root -> Uniform (keep root ann).
Proof.
  intros Eb. unfold keep. destruct (truthy (id ann)).
  - now apply (built_uniform filters).
  - apply Uniform_ret.
Qed.


End Determinism.

(** ** The properties on concrete inputs *)

Module Checks.
Import Demo.

Lemma filterAnnotations_spec_witness :
  @buildRootFilter env since60 = Ok since60_root
  /\ fst (@filterAnnotations env [a1; a2; a3] since60 (at_ 1714564830000))
     = Ok [Some "a1"].
Proof.
  split; [reflexivity|].
  destruct (@filterAnnotations_spec env [a1; a2; a3] since60 since60_root
              (at_ 1714564830000) eq_refl) as (_ & E & _).
  rewrite E. reflexivity.
Defined.

Lemma since_matches_spec_witness :
  @Date_parse env (updated a1) = Some 1714564800000%Z
  /\ (clock (at_ 1714564830000) (reads (at_ 1714564830000)) - 1714564800000
      = 30000)%Z
  /\ fst (Filter_matches (TermFilter (num_of_Z 60) (@sinceMatcher env)) a1
            (at_ 1714564830000)) = true.
Proof.
  split; [reflexivity|]. split; [reflexivity|].
  apply (proj1 (proj2 (proj2 (@since_matches_spec env a1 (at_ 1714564830000)
                                1714564800000 eq_refl)))).
  reflexivity.
Defined.

(** Where the rounding shows.  300 ms after the update, with the age 0.3
    (the double nearest to it, just below 3/10), the quotient [300 / 1000]
    rounds to that same double and the filter matches, as [0.3 <= 0.3]
    says it should; the exact quotient 3/10 is above the exact value of
    that double. *)
Example since_rounds_the_quotient :
  round64 (3 # 10) = Num (5404319552844595 # 18014398509481984)
  /\ fst (Filter_matches
            (TermFilter (Num (5404319552844595 # 18014398509481984))
                        (@sinceMatcher env))
            a1 (at_ 1714564800300)) = true
  /\ ~ (inject_Z (clock (at_ 1714564800300) (reads (at_ 1714564800300))
                  - 1714564800000)
        / inject_Z 1000
        <= 5404319552844595 # 18014398509481984)%Q.
Proof.
  split; [vm_compute; reflexivity|]. split; [vm_compute; reflexivity|].
  intros Hle. apply Qle_bool_iff in Hle. vm_compute in Hle. discriminate.
Qed.

(** A string term on [since] is coerced where it is compared: ["Infinity"]
    lets every dated annotation through, ["infinity"] is not a number and
    lets none through; a number on a string field throws. *)
Example ill_typed_terms :
  fst (@filterAnnotations env [a1; a2; a3]
         [("since", facet [TStr "Infinity"] Or)] (at_ 1714564830000))
  = Ok [Some "a1"]
  /\ fst (@filterAnnotations env [a1; a2; a3]
            [("since", facet [TStr "infinity"] Or)] (at_ 1714564830000))
     = Ok []
  /\ fst (@filterAnnotations env [a1; a2; a3]
            [("text", facet [TNum (num_of_Z 5)] Or)] (at_ 0))
     = Throw TypeError.
Proof. split_all; vm_compute; reflexivity. Qed.

Lemma facets_joined_by_and_witness :
  (exists root, @buildRootFilter env hello_beta = Ok root)
  /\ exists fieldFilters,
       @buildRootFilter env hello_beta
       = Ok (BooleanOpFilter And fieldFilters)
       /\ length fieldFilters = 2%nat.
Proof.
  split; [eexists; reflexivity|].
  destruct (@facets_joined_by_and env hello_beta _ eq_refl)
    as (ffs & E & Hshape & _).
  exists ffs. split.
  - rewrite <- E. reflexivity.
  - apply Forall2_length in Hshape. rewrite <- Hshape. reflexivity.
Defined.

Lemma empty_facets_are_noops_witness :
  (forall entry, In entry no_terms -> terms (snd entry) = [])
  /\ @filterAnnotations env [a1; a2; a3] no_terms (at_ 0)
     = (Ok [Some "a1"; Some "a3"], at_ 0).
Proof.
  assert (Hempty : forall entry, In entry no_terms -> terms (snd entry) = []).
  { intros entry [<-|[<-|[]]]; reflexivity. }
  split; [exact Hempty|].
  exact (proj2 (@empty_facets_are_noops env [a1; a2; a3] no_terms (at_ 0)
                  Hempty)).
Defined.

Lemma wellFormed_query_does_not_throw_witness :
  wellFormed hello_beta = true
  /\ exists ids w',
       @filterAnnotations env [a1; a2; a3] hello_beta (at_ 0) = (Ok ids, w').
Proof.
  split; [reflexivity|].
  apply (proj1 (@wellFormed_query_does_not_throw env)). reflexivity.
Defined.

Lemma unknown_field_throws_witness :
  In ("colour", facet [TStr "red"] Or) colour_red
  /\ wellTyped colour_red = true
  /\ @filterAnnotations env [a1; a2; a3] colour_red (at_ 0)
     = (Throw TypeError, at_ 0).
Proof.
  assert (Hin : In ("colour", facet [TStr "red"] Or) colour_red).
  { right. left. reflexivity. }
  split; [exact Hin|]. split; [reflexivity|].
  refine (proj2 (proj2 (@unknown_field_throws env [a1; a2; a3] colour_red
                          (at_ 0) "colour" _ Hin _ _ _)) eq_refl).
  - discriminate.
  - cbn. intuition discriminate.
  - discriminate.
Defined.



End Checks.


(** * Further properties of the filter engine *)

(** ** More on the array methods *)

Lemma Subseq_map {A B : Type} (f : A -> B) l1 l2 :
  Subseq l1 l2 -> Subseq (map f l1) (map f l2).
Proof. induction 1; cbn; now constructor. Qed.

Lemma Subseq_length {A : Type} (l1 l2 : list A) :
  Subseq l1 l2 -> (length l1 <= length l2)%nat.
Proof. induction 1; cbn; lia. Qed.

Lemma Subseq_In {A : Type} (l1 l2 : list A) a :
  Subseq l1 l2 -> In a l1 -> In a l2.
Proof.
  induction 1 as [|b l1 l2 _ IH|b l1 l2 _ IH]; cbn; [tauto| |].
  - intros [->|Hin]; [now left | right; now apply IH].
  - intros Hin. right. now apply IH.
Qed.

Lemma Array_filter_Subseq {A : Type} (p : A -> M bool) l w :
  Subseq (fst (Array_filter p l w)) l.
Proof.
  revert w. induction l as [|a l IH]; intros w; [constructor|].
  rewrite Array_filter_cons. cbn [fst].
  destruct (fst (p a w)); constructor; apply IH.
Qed.

Lemma Array_filter_ext {A : Type} (p q : A -> M bool) l w :
  (forall a w', p a w' = q a w') -> Array_filter p l w = Array_filter q l w.
Proof.
  intros Hpq. revert w. induction l as [|a l IH]; intros w; [reflexivity|].
  now rewrite !Array_filter_cons, Hpq, IH.
Qed.

Lemma Array_every_ext {A B : Type} (p : A -> M bool) (q : B -> M bool) l l' w :
  Forall2 (fun a b => forall w', p a w' = q b w') l l' ->
  Array_every p l w = Array_every q l' w.
Proof.
  intros Hall. revert w.
  induction Hall as [|a b l l' Hab _ IH]; intros w; [reflexivity|].
  rewrite !Array_every_cons, Hab. destruct (fst (q b w)); [apply IH | reflexivity].
Qed.

Lemma Array_map_app {A B : Type} (f : A -> Result B) l1 l2 :
  Array_map f (l1 ++ l2) =
    (bs1 <-! Array_map f l1 ;; bs2 <-! Array_map f l2 ;; Ok (bs1 ++ bs2)).
Proof.
  induction l1 as [|a l1 IH]; cbn.
  - now destruct (Array_map f l2).
  - destruct (f a) as [b|e]; [|reflexivity]. cbn. rewrite IH.
    destruct (Array_map f l1) as [bs1|e]; [|reflexivity]. cbn.
    now destruct (Array_map f l2).
Qed.

Lemma Array_map_ext {A B : Type} (f g : A -> Result B) l :
  (forall a, In a l -> f a = g a) -> Array_map f l = Array_map g l.
Proof.
  induction l as [|a l IH]; intros Hfg; [reflexivity|].
  cbn. rewrite (Hfg a) by now left. rewrite IH; [reflexivity|].
  intros x Hx. apply Hfg. now right.
Qed.

(** ** What is returned *)

Section Returned.
Context `{Collaborators}.

(** X1: whatever the query, the list [filterAnnotations] returns is the
    list of the input annotations' [id]s with some left out: nothing is
    added, repeated or reordered, so it is never longer than the input, and
    no [undefined] or empty [id] is in it. *)
Theorem filterAnnotations_returns_input_ids
  (annotations : list Annotation) (filters : Query) (w : World)
  (ids : list (option string)) :
  fst (filterAnnotations annotations filters w) = Ok ids ->
  Subseq ids (map id annotations)
  /\ (length ids <= length annotations)%nat
  /\ Forall (fun i => exists s, i = Some s /\ s <> "") ids.
Proof.
  intros E.
  assert (Hsub : Subseq ids (map id annotations)).
  { unfold filterAnnotations in E.
    destruct (buildRootFilter filters) as [root|e]; [|discriminate].
    pose proof (Array_filter_Subseq (keep root) annotations w) as Hs.
    destruct (Array_filter (keep root) annotations w) as [kept w'].
    cbn in E, Hs. injection E as <-. now apply Subseq_map. }
  split; [exact Hsub|]. split.
  - apply Subseq_length in Hsub. now rewrite length_map in Hsub.
  - pose proof (filterAnnotations_ids_truthy _ _ _ _ E) as Ht.
    eapply Forall_impl; [|exact Ht]. intros [s|] Hs; [|discriminate].
    exists s. split; [reflexivity|]. intros ->. discriminate.
Qed.

Lemma hasTerms_nonempty (entry : string * Facet) :
  terms (snd entry) <> [] -> hasTerms entry = true.
Proof.
  unfold hasTerms. destruct (terms (snd entry)); [contradiction | reflexivity].
Qed.

(** A facet without terms is dropped before the tree is built. *)
Lemma buildRootFilter_drop_empty (before after : Query) field op :
  buildRootFilter (before ++ (field, {| terms := []; operator := op |}) :: after)
  = buildRootFilter (before ++ after).
Proof. unfold buildRootFilter. now rewrite !filter_app. Qed.

(** X2: a facet with no terms is ignored wherever it stands in the query,
    whatever its operator and whatever its field name, an unknown one
    included: the result, or the exception, is that of the query without
    it. *)
Theorem empty_facet_is_ignored
  (annotations : list Annotation) (before after : Query)
  (field : string) (op : Operator) (w : World) :
  filterAnnotations annotations
    (before ++ (field, {| terms := []; operator := op |}) :: after) w
  = filterAnnotations annotations (before ++ after) w.
Proof.
  unfold filterAnnotations. now rewrite buildRootFilter_drop_empty.
Qed.

Lemma makeTermFilter_normal_form field t1 t2 :
  field <> "since" ->
  normalizeStr t1 = normalizeStr t2 ->
  makeTermFilter field (TStr t1) = makeTermFilter field (TStr t2).
Proof.
  intros Hfield Hn. unfold makeTermFilter.
  destruct (lookup field fieldMatchers) as [am|] eqn:El; [|reflexivity].
  apply lookup_registry in El as [[-> ->] | (_ & _ & fv & ->)];
    [now elim Hfield|].
  cbn. now rewrite Hn.
Qed.

Lemma fieldFilter_normal_form field ts1 ts2 t1 t2 op :
  field <> "since" ->
  normalizeStr t1 = normalizeStr t2 ->
  fieldFilter (field, {| terms := ts1 ++ TStr t1 :: ts2; operator := op |})
  = fieldFilter (field, {| terms := ts1 ++ TStr t2 :: ts2; operator := op |}).
Proof.
  intros Hfield Hn. unfold fieldFilter. cbn [terms operator].
  destruct (field =? "any"); rewrite !Array_map_app; cbn [Array_map];
    [|now rewrite (makeTermFilter_normal_form field t1 t2 Hfield Hn)].
  replace (Array_map (fun field0 => makeTermFilter field0 (TStr t1)) anyFields)
    with (Array_map (fun field0 => makeTermFilter field0 (TStr t2)) anyFields);
    [reflexivity|].
  apply Array_map_ext. intros fld Hin. symmetry.
  apply makeTermFilter_normal_form; [|exact Hn].
  intros ->. cbn in Hin. intuition discriminate.
Qed.

(** The tree of a query, around one of its facets that has terms. *)
Lemma buildRootFilter_split (before after : Query) (entry : string * Facet) :
  hasTerms entry = true ->
  buildRootFilter (before ++ entry :: after)
  = (ffs1 <-! Array_map fieldFilter (List.filter hasTerms before) ;;
     ff <-! fieldFilter entry ;;
     ffs2 <-! Array_map fieldFilter (List.filter hasTerms after) ;;
     Ok (BooleanOpFilter And (ffs1 ++ ff :: ffs2))).
Proof.
  intros Hhas. unfold buildRootFilter. rewrite filter_app. cbn [List.filter].
  rewrite Hhas, Array_map_app.
  change (Array_map fieldFilter (entry :: List.filter hasTerms after))
    with (b <-! fieldFilter entry ;;
          bs <-! Array_map fieldFilter (List.filter hasTerms after) ;;
          Ok (b :: bs)).
  destruct (Array_map fieldFilter (List.filter hasTerms before));
    [|reflexivity]. cbn [bindR].
  destruct (fieldFilter entry); [|reflexivity]. cbn [bindR].
  now destruct (Array_map fieldFilter (List.filter hasTerms after)).
Qed.

(** X3: on every field but [since] only the normal form of a string term
    counts.  Replacing a term of a facet whose field is not [since],
    anywhere in a query, by one with the same [normalizeStr] image changes
    nothing: the same list is returned, or the same exception thrown, and
    the clock is left in the same state.  ([since] keeps its term as it is,
    so there the text itself counts.) *)
Theorem terms_count_up_to_normalizeStr
  (annotations : list Annotation) (before after : Query) (field : string)
  (ts1 ts2 : list Term) (t1 t2 : string) (op : Operator) (w : World) :
  field <> "since" ->
  normalizeStr t1 = normalizeStr t2 ->
  filterAnnotations annotations
    (before
     ++ (field, {| terms := ts1 ++ TStr t1 :: ts2; operator := op |}) :: after)
    w
  = filterAnnotations annotations
      (before
       ++ (field, {| terms := ts1 ++ TStr t2 :: ts2; operator := op |}) :: after)
      w.
Proof.
  intros Hfield Hn. unfold filterAnnotations.
  rewrite !buildRootFilter_split
    by (apply hasTerms_nonempty; cbn; now destruct ts1).
  now rewrite (fieldFilter_normal_form field ts1 ts2 t1 t2 op Hfield Hn).
Qed.

End Returned.

(** ** How facets combine *)

Lemma Array_every_app {A : Type} (p : A -> M bool) l1 l2 w :
  Array_every p (l1 ++ l2) w =
    (if fst (Array_every p l1 w)
     then Array_every p l2 (snd (Array_every p l1 w))
     else (false, snd (Array_every p l1 w))).
Proof.
  revert w. induction l1 as [|a l1 IH]; intros w; [reflexivity|].
  cbn [app]. rewrite !Array_every_cons.
  destruct (fst (p a w)); [apply IH | reflexivity].
Qed.

Lemma Forall2_same {A : Type} (R : A -> A -> Prop) l :
  (forall a, R a a) -> Forall2 R l l.
Proof. intros HR. induction l; constructor; auto. Qed.

Lemma forallb_Permutation {A : Type} (g : A -> bool) l l' :
  Permutation l l' -> forallb g l = forallb g l'.
Proof.
  induction 1 as [|a l l' _ IH|a b l|l l' l'' _ IH1 _ IH2]; cbn.
  - reflexivity.
  - now rewrite IH.
  - now rewrite !andb_assoc, (andb_comm (g b)).
  - now rewrite IH1.
Qed.

Lemma filter_Permutation {A : Type} (g : A -> bool) l l' :
  Permutation l l' -> Permutation (List.filter g l) (List.filter g l').
Proof.
  induction 1 as [|a l l' _ IH|a b l|l l' l'' _ IH1 _ IH2]; cbn.
  - constructor.
  - destruct (g a); [now constructor | exact IH].
  - destruct (g a), (g b); try apply Permutation_refl. apply perm_swap.
  - now apply perm_trans with (List.filter g l').
Qed.

Lemma Array_map_Permutation {A B : Type} (f : A -> Result B) l l' :
  Permutation l l' ->
  forall bs, Array_map f l = Ok bs ->
  exists bs', Array_map f l' = Ok bs' /\ Permutation bs bs'.
Proof.
  induction 1 as [|a l l' _ IH|a b l|l l' l'' _ IH1 _ IH2]; intros bs E.
  - exists bs. split; [exact E | apply Permutation_refl].
  - cbn in E |- *. destruct (f a) as [y|e]; [|discriminate]. cbn in E |- *.
    destruct (Array_map f l) as [ys|e]; [|discriminate]. cbn in E.
    injection E as <-. destruct (IH ys eq_refl) as (ys' & -> & Hp).
    exists (y :: ys'). split; [reflexivity | now constructor].
  - cbn in E |- *. destruct (f b) as [yb|e]; [|discriminate]. cbn in E |- *.
    destruct (f a) as [ya|e]; [|discriminate]. cbn in E |- *.
    destruct (Array_map f l) as [ys|e]; [|discriminate]. cbn in E |- *.
    injection E as <-. exists (ya :: yb :: ys).
    split; [reflexivity | apply perm_swap].
  - destruct (IH1 bs E) as (bs' & E' & Hp1).
    destruct (IH2 bs' E') as (bs'' & E'' & Hp2).
    exists bs''. split; [exact E'' | now apply perm_trans with bs'].
Qed.

Section Combining.
Context `{Collaborators}.

Lemma buildRootFilter_inv filters root :
  buildRootFilter filters = Ok root ->
  exists ffs,
    Array_map fieldFilter (List.filter hasTerms filters) = Ok ffs
    /\ root = BooleanOpFilter And ffs.
Proof.
  unfold buildRootFilter.
  destruct (Array_map fieldFilter (List.filter hasTerms filters)) as [ffs|e];
    [|discriminate].
  cbn. intros E. injection E as <-. now exists ffs.
Qed.

(** The field-level nodes of a query without [since] leave the clock
    alone. *)
Lemma built_children_clockfree filters ffs ann :
  sinceFree filters = true ->
  buildRootFilter filters = Ok (BooleanOpFilter And ffs) ->
  Forall (fun f => ClockFree (Filter_matches f ann)) ffs.
Proof.
  intros Hfree Eb.
  pose proof (buildRootFilter_leaves ClockFreeMatcher
                stringFieldMatcher_clockfree filters _ (or_introl Hfree) Eb)
    as HL.
  apply Leaves_inv in HL. eapply Forall_impl; [|exact HL].
  intros f Hf. now apply (Good_matches (@ClockFree) ClockFree_ret ClockFree_bind).
Qed.

Lemma single_child_operator (b : Filter) (op1 op2 : Operator) :
  Equivalent (BooleanOpFilter op1 [b]) (BooleanOpFilter op2 [b]).
Proof.
  intros ann w. destruct op1, op2; cbn [Filter_matches];
    rewrite ?Array_every_cons, ?Array_some_cons;
    destruct (Filter_matches b ann w) as [[|] w']; reflexivity.
Qed.

Lemma fieldFilter_single field t :
  exists r : Result Filter,
    forall op,
      fieldFilter (field, {| terms := [t]; operator := op |})
      = (b <-! r ;; Ok (BooleanOpFilter op [b])).
Proof.
  unfold fieldFilter. cbn [terms operator].
  destruct (field =? "any").
  - exists (fs <-! Array_map (fun field0 => makeTermFilter field0 t) anyFields ;;
            Ok (BooleanOpFilter Or fs)).
    intros op.
    change (Array_map ?F [t]) with (b <-! F t ;; bs <-! Ok [] ;; Ok (b :: bs)).
    cbv beta.
    now destruct (fs <-! Array_map (fun field0 => makeTermFilter field0 t)
                                   anyFields ;;
                  Ok (BooleanOpFilter Or fs)).
  - exists (makeTermFilter field t). intros op.
    change (Array_map ?F [t]) with (b <-! F t ;; bs <-! Ok [] ;; Ok (b :: bs)).
    cbv beta. now destruct (makeTermFilter field t).
Qed.

(** X4: on a facet with a single term the operator makes no difference:
    with ['and'] or ['or'], anywhere in a query, the same list is returned
    or the same exception thrown, and the clock is left in the same
    state. *)
Theorem single_term_operator_irrelevant
  (annotations : list Annotation) (before after : Query) (field : string)
  (t : Term) (op1 op2 : Operator) (w : World) :
  filterAnnotations annotations
    (before ++ (field, {| terms := [t]; operator := op1 |}) :: after) w
  = filterAnnotations annotations
      (before ++ (field, {| terms := [t]; operator := op2 |}) :: after) w.
Proof.
  unfold filterAnnotations.
  rewrite !buildRootFilter_split by reflexivity.
  destruct (fieldFilter_single field t) as [r Hr]. rewrite !Hr.
  destruct (Array_map fieldFilter (List.filter hasTerms before)) as [ffs1|e];
    [|reflexivity]. cbn [bindR].
  destruct r as [b|e]; [|reflexivity]. cbn [bindR].
  destruct (Array_map fieldFilter (List.filter hasTerms after)) as [ffs2|e];
    [|reflexivity]. cbn [bindR].
  rewrite (Array_filter_ext
             (keep (BooleanOpFilter And
                      (ffs1 ++ BooleanOpFilter op1 [b] :: ffs2)))
             (keep (BooleanOpFilter And
                      (ffs1 ++ BooleanOpFilter op2 [b] :: ffs2))));
    [reflexivity|].
  intros ann w'. unfold keep. destruct (truthy (id ann)); [|reflexivity].
  cbn [Filter_matches]. apply Array_every_ext.
  apply Forall2_app; [now apply Forall2_same|].
  constructor; [|now apply Forall2_same].
  intros w''. apply single_child_operator.
Qed.

(** X5: the root filter of [filters1 ++ filters2] asks the root filter of
    [filters1] and then, if that matched, the root filter of [filters2] in
    the world the first left; so without a [since] facet the concatenated
    query returns exactly the annotations both queries accept. *)
Theorem concatenated_queries_intersect
  (filters1 filters2 : Query) (root1 root2 : Filter) :
  buildRootFilter filters1 = Ok root1 ->
  buildRootFilter filters2 = Ok root2 ->
  exists root,
    buildRootFilter (filters1 ++ filters2) = Ok root
    /\ (forall ann w,
          Filter_matches root ann w =
            (if fst (Filter_matches root1 ann w)
             then Filter_matches root2 ann (snd (Filter_matches root1 ann w))
             else (false, snd (Filter_matches root1 ann w))))
    /\ (sinceFree (filters1 ++ filters2) = true ->
        forall annotations w,
          filterAnnotations annotations (filters1 ++ filters2) w =
            (Ok (map id
                   (filter
                      (fun ann =>
                         truthy (id ann)
                         && (fst (Filter_matches root1 ann w)
                             && fst (Filter_matches root2 ann w)))
                      annotations)), w)).
Proof.
  intros Eb1 Eb2.
  destruct (buildRootFilter_inv _ _ Eb1) as (ffs1 & Em1 & ->).
  destruct (buildRootFilter_inv _ _ Eb2) as (ffs2 & Em2 & ->).
  assert (Eb : buildRootFilter (filters1 ++ filters2)
               = Ok (BooleanOpFilter And (ffs1 ++ ffs2))).
  { unfold buildRootFilter. now rewrite filter_app, Array_map_app, Em1, Em2. }
  assert (Hseq : forall ann w,
             Filter_matches (BooleanOpFilter And (ffs1 ++ ffs2)) ann w =
               (if fst (Filter_matches (BooleanOpFilter And ffs1) ann w)
                then Filter_matches (BooleanOpFilter And ffs2) ann
                       (snd (Filter_matches (BooleanOpFilter And ffs1) ann w))
                else (false,
                      snd (Filter_matches (BooleanOpFilter And ffs1) ann w)))).
  { intros ann w. cbn [Filter_matches]. apply Array_every_app. }
  exists (BooleanOpFilter And (ffs1 ++ ffs2)).
  split; [exact Eb|]. split; [exact Hseq|].
  intros Hfree annotations w.
  unfold sinceFree in Hfree. rewrite forallb_app in Hfree.
  apply andb_true_iff in Hfree as [Hfree1 Hfree2].
  assert (Hfree : sinceFree (filters1 ++ filters2) = true).
  { unfold sinceFree. rewrite forallb_app. now apply andb_true_iff. }
  rewrite (filterAnnotations_clockfree annotations _ _ w Eb)
    by (intros ann; now apply (built_clockfree (filters1 ++ filters2))).
  do 3 f_equal. apply filter_ext. intros ann. f_equal.
  rewrite Hseq.
  rewrite (ClockFree_run _ (built_clockfree filters1 _ ann Hfree1 Eb1) w w).
  cbn [fst snd].
  now destruct (fst (Filter_matches (BooleanOpFilter And ffs1) ann w)).
Qed.

(** X6: without a [since] facet the order of the facets in the query does
    not matter: a query that is built is still built after its facets are
    permuted, and returns the same list. *)
Theorem facet_order_irrelevant
  (filters filters' : Query) (root : Filter) :
  Permutation filters filters' ->
  sinceFree filters = true ->
  buildRootFilter filters = Ok root ->
  exists root',
    buildRootFilter filters' = Ok root'
    /\ forall annotations w,
         filterAnnotations annotations filters' w
         = filterAnnotations annotations filters w.
Proof.
  intros Hperm Hfree Eb.
  destruct (buildRootFilter_inv _ _ Eb) as (ffs & Em & ->).
  destruct (Array_map_Permutation fieldFilter _ _
              (filter_Permutation hasTerms _ _ Hperm) ffs Em)
    as (ffs' & Em' & Hp).
  assert (Eb' : buildRootFilter filters' = Ok (BooleanOpFilter And ffs')).
  { unfold buildRootFilter. now rewrite Em'. }
  assert (Hfree' : sinceFree filters' = true).
  { unfold sinceFree in *. now rewrite <- (forallb_Permutation _ _ _ Hperm). }
  exists (BooleanOpFilter And ffs'). split; [exact Eb'|].
  intros annotations w.
  rewrite (filterAnnotations_clockfree annotations _ _ w Eb)
    by (intros ann; now apply (built_clockfree filters)).
  rewrite (filterAnnotations_clockfree annotations _ _ w Eb')
    by (intros ann; now apply (built_clockfree filters')).
  do 3 f_equal. apply filter_ext. intros ann. f_equal.
  rewrite (BooleanOpFilter_matches_clockfree And ffs)
    by (now apply (built_children_clockfree filters)).
  rewrite (BooleanOpFilter_matches_clockfree And ffs')
    by (now apply (built_children_clockfree filters')).
  cbn [fst]. symmetry. now apply forallb_Permutation.
Qed.

End Combining.

(** ** One facet at a time *)

Lemma Array_every_map {A B : Type} (h : A -> B) (p : B -> M bool) l w :
  Array_every p (map h l) w = Array_every (fun a => p (h a)) l w.
Proof.
  revert w. induction l as [|a l IH]; intros w; [reflexivity|].
  cbn [map]. rewrite !Array_every_cons.
  destruct (fst (p (h a) w)); [apply IH | reflexivity].
Qed.

Lemma Array_some_map {A B : Type} (h : A -> B) (p : B -> M bool) l w :
  Array_some p (map h l) w = Array_some (fun a => p (h a)) l w.
Proof.
  revert w. induction l as [|a l IH]; intros w; [reflexivity|].
  cbn [map]. rewrite !Array_some_cons.
  destruct (fst (p (h a) w)); [reflexivity | apply IH].
Qed.

Lemma Array_filter_mono {A : Type} (p1 p2 : A -> M bool) l w :
  (forall a w', snd (p1 a w') = snd (p2 a w')
                /\ (fst (p1 a w') = true -> fst (p2 a w') = true)) ->
  Subseq (fst (Array_filter p1 l w)) (fst (Array_filter p2 l w))
  /\ snd (Array_filter p1 l w) = snd (Array_filter p2 l w).
Proof.
  intros Hp. revert w. induction l as [|a l IH]; intros w.
  - split; [constructor | reflexivity].
  - rewrite !Array_filter_cons. cbn [fst snd].
    destruct (Hp a w) as [Ew Hmono]. rewrite Ew.
    destruct (IH (snd (p2 a w))) as [Hs Es]. split; [|exact Es].
    destruct (fst (p1 a w)).
    + rewrite Hmono by reflexivity. now constructor.
    + destruct (fst (p2 a w)); [now constructor | exact Hs].
Qed.

Section OneFacet.
Context `{Collaborators}.

(** X7: a query with one facet on a string field of the registry ([quote],
    [tag], [text], [uri] or [user]; [fv] is the field's extraction) and at
    least one term returns the annotations with a non-empty [id] for which
    every term (operator ['and']) or some term (operator ['or']), once
    normalized, occurs in one of the field's normalized values.  The clock
    is not read. *)
Theorem string_facet_semantics
  (annotations : list Annotation) (field : string)
  (fv : Annotation -> list string) (ts : list string) (op : Operator)
  (w : World) :
  lookup field fieldMatchers = Some (StringMatcher (stringFieldMatcher fv)) ->
  ts <> [] ->
  filterAnnotations annotations
    [(field, {| terms := map TStr ts; operator := op |})] w
  = (Ok (map id
           (filter
              (fun ann =>
                 truthy (id ann)
                 && match op with
                    | And =>
                        forallb
                          (fun t =>
                             existsb
                               (fun value =>
                                  includes (normalizeStr value) (normalizeStr t))
                               (fv ann))
                          ts
                    | Or =>
                        existsb
                          (fun t =>
                             existsb
                               (fun value =>
                                  includes (normalizeStr value) (normalizeStr t))
                               (fv ann))
                          ts
                    end)
              annotations)), w).
Proof.
  intros El Hts.
  assert (Hany : (field =? "any") = false).
  { destruct (String.eqb_spec field "any") as [->|_]; [|reflexivity].
    discriminate El. }
  assert (Ef : fieldFilter (field, {| terms := map TStr ts; operator := op |})
               = Ok (BooleanOpFilter op
                       (map (fun t => TermFilter (normalizeStr t)
                                        (stringFieldMatcher fv)) ts))).
  { unfold fieldFilter. rewrite Hany. cbn [terms operator].
    erewrite Array_map_TStr; [reflexivity|].
    intros s. unfold makeTermFilter. rewrite El. reflexivity. }
  assert (Eb : buildRootFilter
                 [(field, {| terms := map TStr ts; operator := op |})]
               = Ok (BooleanOpFilter And
                       [BooleanOpFilter op
                          (map (fun t => TermFilter (normalizeStr t)
                                           (stringFieldMatcher fv)) ts)])).
  { unfold buildRootFilter. cbn [List.filter].
    rewrite hasTerms_nonempty by (cbn; now destruct ts).
    change (Array_map fieldFilter [?e])
      with (b <-! fieldFilter e ;; bs <-! Ok [] ;; Ok (b :: bs)).
    now rewrite Ef. }
  unfold filterAnnotations. rewrite Eb.
  erewrite Array_filter_pure; [reflexivity|].
  intros ann w0. unfold keep. destruct (truthy (id ann)); [|reflexivity].
  cbn [Filter_matches andb]. rewrite Array_every_cons.
  destruct op; cbn [Filter_matches].
  - rewrite Array_every_map.
    erewrite Array_every_pure
      by (intros t w1; apply string_TermFilter_matches).
    cbn [fst snd]. now destruct (forallb _ ts).
  - rewrite Array_some_map.
    erewrite Array_some_pure
      by (intros t w1; apply string_TermFilter_matches).
    cbn [fst snd]. now destruct (existsb _ ts).
Qed.

(** A combinator over a single child answers as the child does. *)
Lemma single_child_matches (op : Operator) (b : Filter) ann w :
  Filter_matches (BooleanOpFilter op [b]) ann w = Filter_matches b ann w.
Proof.
  destruct op; cbn [Filter_matches];
    [rewrite Array_every_cons | rewrite Array_some_cons];
    destruct (Filter_matches b ann w) as [[|] w']; reflexivity.
Qed.

(** The callback of [annotations.filter] under a one-term [since] query. *)
Lemma keep_since (age : number) (op : Operator) ann w :
  keep (BooleanOpFilter And [BooleanOpFilter op [TermFilter age sinceMatcher]])
       ann w
  = if truthy (id ann)
    then (fst (Filter_matches (TermFilter age sinceMatcher) ann w), tick w)
    else (false, w).
Proof.
  unfold keep. destruct (truthy (id ann)); [|reflexivity].
  rewrite !single_child_matches, since_TermFilter_matches. reflexivity.
Qed.

Lemma since_verdict_mono (t1 t2 : Q) ann w :
  (t1 <= t2)%Q ->
  fst (Filter_matches (TermFilter (Num t1) sinceMatcher) ann w) = true ->
  fst (Filter_matches (TermFilter (Num t2) sinceMatcher) ann w) = true.
Proof.
  intros Hle. rewrite !since_TermFilter_matches. cbn [fst].
  destruct (num_div _ _) as [|d|s]; cbn [num_le]; [discriminate| |trivial].
  rewrite !Qle_bool_iff. intros Hd. now apply Qle_trans with t1.
Qed.

(** X8: widening the [since] window never loses an annotation.  For ages
    [t1 <= t2], in the same world, the list returned for [t1] is the list
    returned for [t2] with some identifiers left out, and both calls leave
    the clock in the same state. *)
Theorem since_window_widens
  (annotations : list Annotation) (t1 t2 : Q) (op1 op2 : Operator)
  (w : World) :
  (t1 <= t2)%Q ->
  exists ids1 ids2,
    fst (filterAnnotations annotations
           [("since", {| terms := [TNum (Num t1)]; operator := op1 |})] w)
    = Ok ids1
    /\ fst (filterAnnotations annotations
              [("since", {| terms := [TNum (Num t2)]; operator := op2 |})] w)
       = Ok ids2
    /\ Subseq ids1 ids2
    /\ snd (filterAnnotations annotations
              [("since", {| terms := [TNum (Num t1)]; operator := op1 |})] w)
       = snd (filterAnnotations annotations
                [("since", {| terms := [TNum (Num t2)]; operator := op2 |})] w).
Proof.
  intros Hle. unfold filterAnnotations.
  change (buildRootFilter
            [("since", {| terms := [TNum (Num t1)]; operator := op1 |})])
    with (Ok (BooleanOpFilter And
                [BooleanOpFilter op1 [TermFilter (Num t1) sinceMatcher]])).
  change (buildRootFilter
            [("since", {| terms := [TNum (Num t2)]; operator := op2 |})])
    with (Ok (BooleanOpFilter And
                [BooleanOpFilter op2 [TermFilter (Num t2) sinceMatcher]])).
  cbv iota.
  destruct (Array_filter_mono
              (keep (BooleanOpFilter And
                       [BooleanOpFilter op1 [TermFilter (Num t1) sinceMatcher]]))
              (keep (BooleanOpFilter And
                       [BooleanOpFilter op2 [TermFilter (Num t2) sinceMatcher]]))
              annotations w) as [Hs Ew].
  { intros ann w'. rewrite !keep_since.
    destruct (truthy (id ann)); cbn [fst snd]; [|now split].
    split; [reflexivity | now apply since_verdict_mono]. }
  destruct (Array_filter (keep (BooleanOpFilter And
              [BooleanOpFilter op1 [TermFilter (Num t1) sinceMatcher]]))
              annotations w) as [k1 w1].
  destruct (Array_filter (keep (BooleanOpFilter And
              [BooleanOpFilter op2 [TermFilter (Num t2) sinceMatcher]]))
              annotations w) as [k2 w2].
  cbn [fst snd] in *. exists (map id k1), (map id k2).
  repeat split; [now apply Subseq_map | exact Ew].
Qed.

(** X9: under a [since] query with one term [age], while the clock stands
    at [now], the result is the annotations with a non-empty [id] on which
    [(now - updated) / 1000 <= age] holds in double arithmetic, an [updated]
    timestamp that does not parse counting as [NaN]; the clock has then been
    read once for each annotation that has a non-empty [id], and never for
    the others.  When the age is a whole number [t] of seconds and the
    timestamps are less than [2^52] ms away from [now], these are the
    annotations whose timestamp parses and is at most [t] seconds before
    [now], exactly. *)
Theorem since_query_on_standing_clock
  (annotations : list Annotation) (age : number) (op : Operator) (w : World)
  (now : Z) :
  (forall n : nat, clock w (reads w + n) = now) ->
  fst (filterAnnotations annotations
         [("since", {| terms := [TNum age]; operator := op |})] w)
  = Ok (map id
          (filter
             (fun ann =>
                truthy (id ann)
                && num_le
                     (num_div
                        (num_sub (num_of_Z now) (Date_valueOf (updated ann)))
                        (num_of_Z 1000))
                     age)
             annotations))
  /\ reads (snd (filterAnnotations annotations
                   [("since", {| terms := [TNum age]; operator := op |})] w))
     = (reads w + length (filter hasId annotations))%nat
  /\ forall t : Z,
       age = num_of_Z t ->
       (forall ann ms,
           In ann annotations -> Date_parse (updated ann) = Some ms ->
           (Z.abs (now - ms) < 2 ^ 52)%Z) ->
       fst (filterAnnotations annotations
              [("since", {| terms := [TNum age]; operator := op |})] w)
       = Ok (map id
               (filter
                  (fun ann =>
                     truthy (id ann)
                     && match Date_parse (updated ann) with
                        | Some ms => (now - ms <=? 1000 * t)%Z
                        | None => false
                        end)
                  annotations)).
Proof.
  intros Hstand.
  assert (Hrun :
    fst (filterAnnotations annotations
           [("since", {| terms := [TNum age]; operator := op |})] w)
    = Ok (map id
            (filter
               (fun ann =>
                  truthy (id ann)
                  && num_le
                       (num_div
                          (num_sub (num_of_Z now) (Date_valueOf (updated ann)))
                          (num_of_Z 1000))
                       age)
               annotations))
    /\ reads (snd (filterAnnotations annotations
                     [("since", {| terms := [TNum age]; operator := op |})] w))
       = (reads w + length (filter hasId annotations))%nat).
  { unfold filterAnnotations.
    change (buildRootFilter
              [("since", {| terms := [TNum age]; operator := op |})])
      with (Ok (BooleanOpFilter And
                  [BooleanOpFilter op [TermFilter age sinceMatcher]])).
    cbv iota.
    revert w Hstand.
    induction annotations as [|ann anns IH]; intros w Hstand.
    - cbn. split; [reflexivity | lia].
    - assert (Enow : clock w (reads w) = now).
      { rewrite <- (Nat.add_0_r (reads w)). apply Hstand. }
      rewrite Array_filter_cons, keep_since, since_TermFilter_matches, Enow.
      cbn [filter fst]. change (hasId ann) with (truthy (id ann)).
      destruct (truthy (id ann)); cbn [fst snd andb].
      + specialize (IH (tick w)).
        destruct (Array_filter _ anns (tick w)) as [kept w'] eqn:Ek.
        cbn [fst snd] in *.
        destruct IH as [IHids IHreads].
        { intros n. specialize (Hstand (S n)). cbn.
          now rewrite Nat.add_succ_r in Hstand. }
        injection IHids as IHids. cbn [reads tick] in IHreads. split.
        * destruct (num_le _ age); cbn [map]; now rewrite IHids.
        * cbn [length]. lia.
      + specialize (IH w Hstand).
        destruct (Array_filter _ anns w) as [kept w'] eqn:Ek.
        cbn [fst snd] in *. exact IH. }
  destruct Hrun as [Hids Hreads].
  split; [exact Hids|]. split; [exact Hreads|].
  intros t -> Hrange. rewrite Hids. do 2 f_equal.
  apply filter_ext_in. intros ann Hin. f_equal. unfold Date_valueOf.
  destruct (Date_parse (updated ann)) as [ms|] eqn:Ep; [|reflexivity].
  apply delta_whole_seconds. now apply (Hrange ann ms).
Qed.

End OneFacet.

(** ** Size of the tree and readings of the clock *)

Lemma Within_weaken {A : Type} (n m : nat) (c : M A) :
  Within n c -> (n <= m)%nat -> Within m c.
Proof. intros Hc Hle w. destruct (Hc w) as [Ec Hr]. split; [exact Ec | lia]. Qed.

Lemma Within_ret {A : Type} (a : A) : Within 0 (ret a).
Proof. intros w. cbn. split; [reflexivity | lia]. Qed.

Lemma Within_bind {A B : Type} (n m : nat) (c : M A) (k : A -> M B) :
  Within n c -> (forall a, Within m (k a)) -> Within (n + m) (bind c k).
Proof.
  intros Hc Hk w. unfold bind. destruct (Hc w) as [Ec Hr].
  destruct (c w) as [a w']. cbn [snd] in *.
  destruct (Hk a w') as [Ek Hr']. split; [congruence | lia].
Qed.

Section WithinArrays.
Context {A : Type} (p : A -> M bool) (cost : A -> nat).

Lemma Within_every l :
  Forall (fun a => Within (cost a) (p a)) l ->
  Within (list_sum (map cost l)) (Array_every p l).
Proof.
  induction 1 as [|a l Ha _ IH]; [apply Within_ret|].
  change (Within (cost a + list_sum (map cost l))
            (b <- p a ;; if b then Array_every p l else ret false)).
  apply Within_bind; [exact Ha|]. intros [|]; [exact IH|].
  eapply Within_weaken; [apply Within_ret | lia].
Qed.

Lemma Within_some l :
  Forall (fun a => Within (cost a) (p a)) l ->
  Within (list_sum (map cost l)) (Array_some p l).
Proof.
  induction 1 as [|a l Ha _ IH]; [apply Within_ret|].
  change (Within (cost a + list_sum (map cost l))
            (b <- p a ;; if b then ret true else Array_some p l)).
  apply Within_bind; [exact Ha|]. intros [|]; [|exact IH].
  eapply Within_weaken; [apply Within_ret | lia].
Qed.

Lemma Within_filter l :
  Forall (fun a => Within (cost a) (p a)) l ->
  Within (list_sum (map cost l)) (Array_filter p l).
Proof.
  induction 1 as [|a l Ha _ IH]; [apply Within_ret|].
  change (Within (cost a + list_sum (map cost l))
            (b <- p a ;; kept <- Array_filter p l ;;
             ret (if b then a :: kept else kept))).
  apply Within_bind; [exact Ha|]. intros b.
  eapply Within_weaken;
    [apply (Within_bind (list_sum (map cost l)) 0);
     [exact IH | intros kept; apply Within_ret] | lia].
Qed.
End WithinArrays.

Lemma Within_matches (f : Filter) (ann : Annotation) :
  Leaves WithinOne f -> Within (leafCount f) (Filter_matches f ann).
Proof.
  induction f as [T term m | op fs IH] using Filter_ind; intros HL.
  - apply Leaves_inv in HL. apply HL.
  - apply Leaves_inv in HL.
    assert (Hall : Forall (fun g => Within (leafCount g) (Filter_matches g ann))
                     fs).
    { rewrite Forall_forall in IH, HL |- *. intros g Hg. now apply IH, HL. }
    destruct op; cbn [Filter_matches leafCount];
      [now apply Within_every | now apply Within_some].
Qed.

Lemma list_sum_cons (x : nat) l : list_sum (x :: l) = (x + list_sum l)%nat.
Proof. reflexivity. Qed.

Lemma list_sum_const {A : Type} (cost : A -> nat) (k : nat) l :
  Forall (fun a => cost a = k) l -> list_sum (map cost l) = (k * length l)%nat.
Proof.
  induction 1 as [|a l Ha _ IH]; [cbn; lia|].
  cbn [map length]. rewrite list_sum_cons, Ha, IH. lia.
Qed.

Lemma list_sum_filtered {A : Type} (g : A -> bool) (k : nat) l :
  list_sum (map (fun a => if g a then k else 0%nat) l)
  = (length (filter g l) * k)%nat.
Proof.
  induction l as [|a l IH]; [reflexivity|].
  cbn [map filter]. rewrite list_sum_cons, IH. destruct (g a); cbn [length]; lia.
Qed.

Section Size.
Context `{Collaborators}.

Lemma makeTermFilter_leaf field term f :
  makeTermFilter field term = Ok f -> leafCount f = 1%nat.
Proof.
  unfold makeTermFilter, new_TermFilter.
  destruct (lookup field fieldMatchers) as [[m|m]|]; [| |discriminate];
    destruct term; try discriminate; intros E; injection E as <-; reflexivity.
Qed.

Lemma fieldFilter_leafCount entry ff :
  fieldFilter entry = Ok ff -> leafCount ff = facetLeaves entry.
Proof.
  destruct entry as [field facet]. unfold fieldFilter, facetLeaves.
  cbn [fst snd]. destruct (field =? "any").
  - destruct (Array_map _ (terms facet)) as [tfs|e] eqn:Etfs; [|discriminate].
    cbn [bindR]. intros E. injection E as <-. cbn [leafCount].
    rewrite (list_sum_const leafCount 4 tfs).
    + now rewrite (Array_map_length _ _ _ Etfs).
    + revert Etfs. apply Array_map_Forall. intros term g _.
      destruct (Array_map _ anyFields) as [fs|e] eqn:Efs; [|discriminate].
      cbn [bindR]. intros E. injection E as <-. cbn [leafCount].
      rewrite (list_sum_const leafCount 1 fs).
      * now rewrite (Array_map_length _ _ _ Efs).
      * revert Efs. apply Array_map_Forall. intros fld g _.
        apply makeTermFilter_leaf.
  - destruct (Array_map _ (terms facet)) as [tfs|e] eqn:Etfs; [|discriminate].
    cbn [bindR]. intros E. injection E as <-. cbn [leafCount].
    rewrite (list_sum_const leafCount 1 tfs).
    + rewrite (Array_map_length _ _ _ Etfs). lia.
    + revert Etfs. apply Array_map_Forall. intros term g _.
      apply makeTermFilter_leaf.
Qed.

Lemma facetLeaves_hasTerms (filters : Query) :
  list_sum (map facetLeaves (List.filter hasTerms filters))
  = queryLeaves filters.
Proof.
  unfold queryLeaves. induction filters as [|entry filters IH]; [reflexivity|].
  cbn [List.filter map]. rewrite list_sum_cons. unfold hasTerms at 1.
  destruct (terms (snd entry)) as [|t ts] eqn:Et; cbn [Nat.ltb Nat.leb length].
  - rewrite IH. unfold facetLeaves. rewrite Et.
    now destruct (fst entry =? "any").
  - cbn [map]. now rewrite list_sum_cons, IH.
Qed.

Lemma buildRootFilter_leafCount filters root :
  buildRootFilter filters = Ok root -> leafCount root = queryLeaves filters.
Proof.
  intros Eb. destruct (buildRootFilter_inv _ _ Eb) as (ffs & Em & ->).
  cbn [leafCount]. rewrite <- facetLeaves_hasTerms.
  apply Array_map_Ok in Em. clear Eb.
  generalize dependent (List.filter hasTerms filters). intros l Em.
  induction Em as [|entry ff l ffs' Eff _ IH]; [reflexivity|].
  cbn [map]. now rewrite !list_sum_cons, IH, (fieldFilter_leafCount _ _ Eff).
Qed.

Lemma stringFieldMatcher_withinOne fv : WithinOne string (stringFieldMatcher fv).
Proof.
  intros term ann. eapply Within_weaken; [|apply Nat.le_0_1].
  intros w. rewrite string_TermFilter_matches. cbn. split; [reflexivity | lia].
Qed.

Lemma sinceMatcher_withinOne : WithinOne number sinceMatcher.
Proof.
  intros term ann w. rewrite since_TermFilter_matches. cbn.
  split; [reflexivity | lia].
Qed.

(** X10: the tree built for a query has one term filter per term, and
    four per term of an [any] facet; [filterAnnotations] never advances the
    clock by more than that number of readings for each annotation that has
    a non-empty [id], and reads it not at all for the others or when the
    construction throws. *)
Theorem clock_readings_are_bounded
  (annotations : list Annotation) (filters : Query) (w : World) :
  (forall root,
      buildRootFilter filters = Ok root -> leafCount root = queryLeaves filters)
  /\ clock (snd (filterAnnotations annotations filters w)) = clock w
  /\ (reads w <= reads (snd (filterAnnotations annotations filters w))
      <= reads w + length (filter hasId annotations) * queryLeaves filters)%nat.
Proof.
  split; [apply buildRootFilter_leafCount|].
  unfold filterAnnotations.
  destruct (buildRootFilter filters) as [root|e] eqn:Eb;
    [|cbn; split; [reflexivity | lia]].
  assert (HW : Within (length (filter hasId annotations) * queryLeaves filters)
                 (Array_filter (keep root) annotations)).
  { rewrite <- list_sum_filtered. apply Within_filter.
    apply Forall_forall. intros ann _. unfold keep, hasId.
    destruct (truthy (id ann)); [|apply Within_ret].
    rewrite <- (buildRootFilter_leafCount _ _ Eb). apply Within_matches.
    apply (buildRootFilter_leaves WithinOne stringFieldMatcher_withinOne
             filters root); [right; apply sinceMatcher_withinOne | exact Eb]. }
  specialize (HW w).
  destruct (Array_filter (keep root) annotations w) as [kept w'].
  exact HW.
Qed.

Lemma forallb_false_ex {A : Type} (g : A -> bool) l :
  forallb g l = false -> exists a, In a l /\ g a = false.
Proof.
  induction l as [|a l IH]; [discriminate|]. cbn.
  destruct (g a) eqn:Ea.
  - intros E. destruct (IH E) as (x & Hx & Ex). exists x. split; [now right | exact Ex].
  - intros _. exists a. split; [now left | exact Ea].
Qed.

(** X11: for a query whose terms have their fields' types,
    [filterAnnotations] returns a list exactly when every facet that has
    terms is named [any] or after a registry field; otherwise it throws a
    [TypeError] and leaves the clock alone.  There is no third outcome. *)
Theorem returns_or_throws_TypeError
  (annotations : list Annotation) (filters : Query) (w : World) :
  wellTyped filters = true ->
  (wellFormed filters = true
   /\ exists ids w', filterAnnotations annotations filters w = (Ok ids, w'))
  \/ (wellFormed filters = false
      /\ (exists field facet,
             In (field, facet) filters /\ terms facet <> []
             /\ field <> "any" /\ ~ In field registryFields)
      /\ filterAnnotations annotations filters w = (Throw TypeError, w)).
Proof.
  intros Htyped. destruct (wellFormed filters) eqn:Hwf.
  - left. split; [reflexivity|].
    destruct (buildRootFilter_total filters Hwf) as [root Eb].
    unfold filterAnnotations. rewrite Eb.
    destruct (Array_filter (keep root) annotations w) as [kept w'].
    now exists (map id kept), w'.
  - right. split; [reflexivity|].
    unfold wellFormed in Hwf.
    apply forallb_false_ex in Hwf as ([field facet] & Hin & Hbad).
    apply forallb_false_ex in Hbad as (term & Hterm & Hbad).
    cbn [fst snd] in *.
    unfold wellTyped in Htyped. rewrite forallb_forall in Htyped.
    pose proof (Htyped _ Hin) as Hfits. cbn [fst snd] in Hfits.
    rewrite forallb_forall in Hfits. rewrite (Hfits term Hterm) in Hbad.
    rewrite andb_true_r in Hbad.
    assert (Hterms : terms facet <> []).
    { intros E. now rewrite E in Hterm. }
    assert (Hany : field <> "any").
    { intros ->. discriminate Hbad. }
    assert (Hreg : ~ In field registryFields).
    { intros Hr. assert (Hyes : isField ("any" :: registryFields) field = true)
        by (apply isField_In; now right). congruence. }
    split; [now exists field, facet|].
    unfold filterAnnotations, buildRootFilter.
    rewrite (Array_map_throws fieldFilter TypeError _ (field, facet)).
    + reflexivity.
    + apply Forall_forall. intros entry He.
      apply filter_In in He as [He _]. apply fieldFilter_typed.
      now apply Htyped.
    + apply filter_In. split; [exact Hin | now apply hasTerms_nonempty].
    + now apply fieldFilter_unknown.
Qed.

End Size.

(** ** Annotations without an id, invalid dates, a clock that stands still *)

Lemma Array_every_rejects {A : Type} (p : A -> M bool) l a w :
  In a l -> (forall w', fst (p a w') = false) ->
  fst (Array_every p l w) = false.
Proof.
  intros Hin Ha. revert w. induction l as [|x l IH]; intros w; [contradiction|].
  rewrite Array_every_cons. destruct Hin as [->|Hin].
  - now rewrite Ha.
  - destruct (fst (p x w)); [now apply IH | reflexivity].
Qed.

Lemma Array_some_rejects {A : Type} (p : A -> M bool) l w :
  Forall (fun a => forall w', fst (p a w') = false) l ->
  fst (Array_some p l w) = false.
Proof.
  intros Hall. revert w. induction Hall as [|a l Ha _ IH]; intros w;
    [reflexivity|].
  rewrite Array_some_cons, Ha. apply IH.
Qed.

Lemma standsAt_later now w w' :
  standsAt now w -> clock w' = clock w -> (reads w <= reads w')%nat ->
  standsAt now w'.
Proof.
  intros Hs Ec Hr n. rewrite Ec.
  replace (reads w' + n)%nat with (reads w + (reads w' - reads w + n))%nat by lia.
  apply Hs.
Qed.

Lemma standsAt_agree now w w' : standsAt now w -> standsAt now w' -> agree w w'.
Proof. intros Hs Hs' n. now rewrite Hs, Hs'. Qed.

Section Edges.
Context `{Collaborators}.

Lemma keep_no_id root ann w : truthy (id ann) = false -> keep root ann w = (false, w).
Proof. intros E. unfold keep. now rewrite E. Qed.

(** X12: annotations without a non-empty [id] are invisible: leaving them
    out of the input changes neither the list returned, nor the exception
    thrown, nor the state the clock is left in. *)
Theorem annotations_without_id_are_invisible
  (annotations : list Annotation) (filters : Query) (w : World) :
  filterAnnotations (filter hasId annotations) filters w
  = filterAnnotations annotations filters w.
Proof.
  unfold filterAnnotations.
  destruct (buildRootFilter filters) as [root|e]; [|reflexivity].
  assert (E : Array_filter (keep root) (filter hasId annotations) w
              = Array_filter (keep root) annotations w).
  { revert w. induction annotations as [|ann anns IH]; intros w; [reflexivity|].
    cbn [filter]. unfold hasId at 1. destruct (truthy (id ann)) eqn:Eid.
    - rewrite !Array_filter_cons. cbv zeta. now rewrite IH.
    - rewrite Array_filter_cons, (keep_no_id root ann _ Eid).
      cbn [fst snd]. rewrite IH.
      now destruct (Array_filter (keep root) anns w). }
  now rewrite E.
Qed.

Lemma since_leaf_rejects_invalid_date field term leaf ann :
  field = "since" ->
  makeTermFilter field term = Ok leaf ->
  Date_parse (updated ann) = None ->
  forall w, fst (Filter_matches leaf ann w) = false.
Proof.
  intros -> E Hnan w.
  destruct term as [s|n]; cbn in E; injection E as <-;
    now rewrite (since_invalid_date _ ann w Hnan).
Qed.

(** X13: a query that has a [since] facet with terms never accepts an
    annotation whose [updated] timestamp does not parse, whatever the other
    facets, the operator and the clock: its root filter rejects the
    annotation in every world, and an input made of such annotations gives
    the empty list. *)
Theorem since_rejects_invalid_dates
  (filters : Query) (root : Filter) (facet : Facet) :
  buildRootFilter filters = Ok root ->
  In ("since", facet) filters ->
  terms facet <> [] ->
  (forall ann w,
      Date_parse (updated ann) = None ->
      fst (Filter_matches root ann w) = false)
  /\ (forall annotations w,
        Forall (fun ann => Date_parse (updated ann) = None) annotations ->
        fst (filterAnnotations annotations filters w) = Ok []).
Proof.
  intros Eb Hin Hterms.
  assert (Hrej : forall ann w,
             Date_parse (updated ann) = None ->
             fst (Filter_matches root ann w) = false).
  { intros ann w Hnan.
    destruct (buildRootFilter_inv _ _ Eb) as (ffs & Em & ->).
    assert (Hhas : In ("since", facet) (List.filter hasTerms filters)).
    { apply filter_In. split; [exact Hin | now apply hasTerms_nonempty]. }
    apply Array_map_Ok in Em.
    assert (Hff : exists ff, In ff ffs /\ fieldFilter ("since", facet) = Ok ff).
    { clear Eb. induction Em as [|entry ff l ffs' Eff _ IH]; [contradiction|].
      destruct Hhas as [->|Hhas].
      - exists ff. split; [now left | exact Eff].
      - destruct (IH Hhas) as (g & Hg & Eg). exists g. split; [now right | exact Eg]. }
    destruct Hff as (ff & Hff & Eff).
    cbn [Filter_matches]. apply (Array_every_rejects _ ffs ff); [exact Hff|].
    intros w'. unfold fieldFilter in Eff.
    change ("since" =? "any") with false in Eff. cbv iota in Eff.
    destruct (Array_map (fun term => makeTermFilter "since" term) (terms facet))
      as [tfs|e] eqn:Etfs; [|discriminate].
    cbn [bindR] in Eff. injection Eff as <-.
    assert (Hall : Forall (fun g => forall w0, fst (Filter_matches g ann w0) = false)
                     tfs).
    { revert Etfs. apply Array_map_Forall. intros term g _ Eg w0.
      now apply (since_leaf_rejects_invalid_date "since" term g ann). }
    destruct (operator facet); cbn [Filter_matches].
    - destruct tfs as [|g tfs].
      + apply Array_map_length in Etfs. destruct (terms facet);
          [contradiction | discriminate].
      + apply (Array_every_rejects _ _ g); [now left|].
        now apply Forall_inv in Hall.
    - now apply Array_some_rejects. }
  split; [exact Hrej|].
  intros annotations w Hall.
  rewrite (filterAnnotations_run annotations filters root w Eb).
  f_equal. revert w.
  induction Hall as [|ann anns Hnan _ IH]; intros w; [reflexivity|].
  cbn [schedule filter fst snd]. rewrite (Hrej ann w Hnan), andb_false_r.
  apply IH.
Qed.

Lemma keep_within filters root ann :
  buildRootFilter filters = Ok root ->
  Within (leafCount root) (keep root ann).
Proof.
  intros Eb. unfold keep. destruct (truthy (id ann)).
  - apply Within_matches.
    apply (buildRootFilter_leaves WithinOne stringFieldMatcher_withinOne
             filters root); [right; apply sinceMatcher_withinOne | exact Eb].
  - eapply Within_weaken; [apply Within_ret | lia].
Qed.

(** X14: while the clock stands still, [filterAnnotations] is a plain
    filter, whatever the query: if every reading from [w] on gives the same
    value, the result is the [id]s of the annotations that have a non-empty
    [id] and that the root filter matches in [w] itself, in input order. *)
Theorem standing_clock_plain_filter
  (annotations : list Annotation) (filters : Query) (root : Filter)
  (w : World) (now : Z) :
  buildRootFilter filters = Ok root ->
  standsAt now w ->
  fst (filterAnnotations annotations filters w)
  = Ok (map id
          (filter
             (fun ann => truthy (id ann) && fst (Filter_matches root ann w))
             annotations)).
Proof.
  intros Eb Hs. unfold filterAnnotations. rewrite Eb.
  assert (E : forall w',
             standsAt now w' ->
             fst (Array_filter (keep root) annotations w')
             = filter
                 (fun ann => truthy (id ann) && fst (Filter_matches root ann w))
                 annotations).
  { induction annotations as [|ann anns IH]; intros w' Hs'; [reflexivity|].
    rewrite Array_filter_cons. cbn [fst filter].
    destruct (keep_within filters root ann Eb w') as [Ec Hr].
    rewrite (IH (snd (keep root ann w')))
      by (apply (standsAt_later now w'); [exact Hs' | exact Ec | lia]).
    destruct (keep_uniform filters root ann Eb w' w
                (standsAt_agree now w' w Hs' Hs)) as [Ev _].
    now rewrite Ev, keep_verdict. }
  specialize (E w Hs).
  destruct (Array_filter (keep root) annotations w) as [kept w'].
  cbn [fst] in *. now rewrite E.
Qed.

End Edges.

(** ** The further properties on concrete inputs *)

Module MoreChecks.
Import Demo DemoMore.

Lemma filterAnnotations_returns_input_ids_witness :
  fst (@filterAnnotations env three hello_beta (at_ 0)) = Ok [Some "a3"]
  /\ Subseq [Some "a3"] (map id three)
  /\ (length [Some "a3"] <= length three)%nat.
Proof.
  split; [reflexivity|].
  destruct (@filterAnnotations_returns_input_ids env three hello_beta (at_ 0)
              [Some "a3"] eq_refl) as (Hs & Hl & _).
  now split.
Defined.

Lemma terms_count_up_to_normalizeStr_witness :
  @normalizeStr env "HELLO" = @normalizeStr env "hello"
  /\ @filterAnnotations env three [("text", facet [TStr "HELLO"] And)] (at_ 0)
     = @filterAnnotations env three [("text", facet [TStr "hello"] And)] (at_ 0).
Proof.
  split; [reflexivity|].
  refine (@terms_count_up_to_normalizeStr env three [] [] "text" [] []
            "HELLO" "hello" And (at_ 0) _ eq_refl).
  discriminate.
Defined.

Lemma concatenated_queries_intersect_witness :
  (exists root1, @buildRootFilter env text_hello = Ok root1)
  /\ (exists root2, @buildRootFilter env (tags_beta_gamma Or) = Ok root2)
  /\ exists root,
       @buildRootFilter env (text_hello ++ tags_beta_gamma Or) = Ok root.
Proof.
  split; [eexists; reflexivity|]. split; [eexists; reflexivity|].
  destruct (@concatenated_queries_intersect env text_hello (tags_beta_gamma Or)
              _ _ eq_refl eq_refl) as (root & Eb & _).
  now exists root.
Defined.

Lemma facet_order_irrelevant_witness :
  Permutation hello_beta
    [("uri", facet [] And);
     ("any", facet [TStr "HELLO"] And);
     ("tag", facet [TStr "beta"; TStr "gamma"] Or)]
  /\ sinceFree hello_beta = true
  /\ forall w,
       @filterAnnotations env three
         [("uri", facet [] And);
          ("any", facet [TStr "HELLO"] And);
          ("tag", facet [TStr "beta"; TStr "gamma"] Or)] w
       = @filterAnnotations env three hello_beta w.
Proof.
  assert (Hp : Permutation hello_beta
                 [("uri", facet [] And);
                  ("any", facet [TStr "HELLO"] And);
                  ("tag", facet [TStr "beta"; TStr "gamma"] Or)])
    by apply perm_swap.
  split; [exact Hp|]. split; [reflexivity|].
  destruct (@facet_order_irrelevant env hello_beta _ _ Hp eq_refl eq_refl)
    as (root' & _ & E).
  intros w. apply E.
Defined.

Lemma string_facet_semantics_witness :
  lookup "tag" (@fieldMatchers env)
  = Some (StringMatcher (@stringFieldMatcher env (fun ann => tags ann)))
  /\ @filterAnnotations env three (tags_beta_gamma Or) (at_ 0)
     = (Ok [Some "a3"], at_ 0).
Proof.
  split; [reflexivity|].
  refine (@string_facet_semantics env three "tag" (fun ann => tags ann)
            ["beta"; "gamma"] Or (at_ 0) eq_refl _).
  discriminate.
Defined.

Lemma since_window_widens_witness :
  (60 <= 120)%Q
  /\ exists ids1 ids2,
       fst (@filterAnnotations env three (since_ 60 Or) (at_ 1714564890000))
       = Ok ids1
       /\ fst (@filterAnnotations env three (since_ 120 And)
                 (at_ 1714564890000))
          = Ok ids2
       /\ Subseq ids1 ids2.
Proof.
  assert (Hle : (60 <= 120)%Q) by (apply Qle_bool_imp_le; reflexivity).
  split; [exact Hle|].
  destruct (@since_window_widens env three 60 120 Or And (at_ 1714564890000)
              Hle) as (ids1 & ids2 & E1 & E2 & Hs & _).
  exists ids1, ids2. repeat split; assumption.
Defined.

Lemma since_query_on_standing_clock_witness :
  (forall n : nat,
      clock (at_ 1714564830000) (reads (at_ 1714564830000) + n)
      = 1714564830000%Z)
  /\ (forall ann ms,
        In ann three -> @Date_parse env (updated ann) = Some ms ->
        (Z.abs (1714564830000 - ms) < 2 ^ 52)%Z)
  /\ fst (@filterAnnotations env three (since_ 60 Or) (at_ 1714564830000))
     = Ok [Some "a1"]
  /\ reads (snd (@filterAnnotations env three (since_ 60 Or)
                   (at_ 1714564830000))) = 2%nat.
Proof.
  assert (Hs : forall n : nat,
             clock (at_ 1714564830000) (reads (at_ 1714564830000) + n)
             = 1714564830000%Z) by (intros n; reflexivity).
  assert (Hr : forall ann ms,
             In ann three -> @Date_parse env (updated ann) = Some ms ->
             (Z.abs (1714564830000 - ms) < 2 ^ 52)%Z).
  { intros ann ms _ E. cbn in E. unfold parse in E.
    destruct (updated ann =? "2024-05-01T12:00:00.000Z")%string;
      [|discriminate].
    injection E as <-. reflexivity. }
  split; [exact Hs|]. split; [exact Hr|].
  destruct (@since_query_on_standing_clock env three (num_of_Z 60) Or
              (at_ 1714564830000) 1714564830000 Hs) as (_ & Hreads & Hwhole).
  split; [|exact Hreads].
  exact (Hwhole 60%Z eq_refl Hr).
Defined.

Lemma clock_readings_are_bounded_witness :
  @buildRootFilter env since60 = Ok since60_root
  /\ leafCount since60_root = queryLeaves since60
  /\ (reads (snd (@filterAnnotations env three since60 (at_ 0)))
      <= reads (at_ 0) + length (filter hasId three) * queryLeaves since60)%nat.
Proof.
  destruct (@clock_readings_are_bounded env three since60 (at_ 0))
    as (Hsize & _ & _ & Hr).
  split; [reflexivity|]. split; [exact (Hsize since60_root eq_refl) | exact Hr].
Defined.

Lemma returns_or_throws_TypeError_witness :
  wellTyped colour_red = true
  /\ @filterAnnotations env three colour_red (at_ 0) = (Throw TypeError, at_ 0).
Proof.
  split; [reflexivity|].
  destruct (@returns_or_throws_TypeError env three colour_red (at_ 0) eq_refl)
    as [[Hwf _] | (_ & _ & E)]; [discriminate Hwf | exact E].
Defined.

Lemma since_rejects_invalid_dates_witness :
  @buildRootFilter env since60 = Ok since60_root
  /\ In ("since", facet [TNum (num_of_Z 60)] Or) since60
  /\ @Date_parse env (updated a3) = None
  /\ fst (Filter_matches since60_root a3 (at_ 1714564830000)) = false.
Proof.
  assert (Hin : In ("since", facet [TNum (num_of_Z 60)] Or) since60)
    by (left; reflexivity).
  split; [reflexivity|]. split; [exact Hin|]. split; [reflexivity|].
  refine (proj1 (@since_rejects_invalid_dates env since60 since60_root _
                   eq_refl Hin _) a3 (at_ 1714564830000) eq_refl).
  discriminate.
Defined.

Lemma standing_clock_plain_filter_witness :
  @buildRootFilter env since60 = Ok since60_root
  /\ standsAt 1714564830000 (later 1714564830000)
  /\ fst (@filterAnnotations env three since60 (later 1714564830000))
     = Ok [Some "a1"].
Proof.
  assert (Hs : standsAt 1714564830000 (later 1714564830000))
    by (intros n; reflexivity).
  split; [reflexivity|]. split; [exact Hs|].
  exact (@standing_clock_plain_filter env three since60 since60_root
           (later 1714564830000) 1714564830000 eq_refl Hs).
Defined.

End MoreChecks.
